(** * Conventional-commit enforcement hook: a shallow embedding

    The development follows [enforce_conventional_commits.py].  A Python
    [str] is a Rocq [string]; its characters are read as the code points
    U+0000 to U+00FF.  Lists are Rocq lists, [set(...)] values are the list
    sets of [ListSet].  The part of Python's [re] module the hook relies on
    is embedded in [Module Re]; [pathlib.PurePosixPath] in [Module Path]. *)

From Stdlib Require Import Bool Arith Lia List Ascii String ListSet.
Import ListNotations.
Open Scope list_scope.
Open Scope string_scope.

(** ** Python string primitives *)

Module Str.

(** [s.startswith(pre)]. *)
Fixpoint startswith (pre s : string) : bool :=
  match pre, s with
  | EmptyString, _ => true
  | String a pre', String b s' => Ascii.eqb a b && startswith pre' s'
  | String _ _, EmptyString => false
  end.

(** [sub in s] on strings. *)
Fixpoint contains (sub s : string) : bool :=
  startswith sub s ||
  match s with
  | EmptyString => false
  | String _ s' => contains sub s'
  end.

(** The mathematical notion: [sub] occurs somewhere inside [s]. *)
Definition occurs_in (sub s : string) : Prop :=
  exists pre post, s = pre ++ sub ++ post.

(** [sep.join(parts)]. *)
Definition join (sep : string) (parts : list string) : string :=
  String.concat sep parts.

(** [s.split(sep)] for a one-character separator: always at least one
    field, empty fields are kept. *)
Fixpoint split (sep : ascii) (s : string) : list string :=
  match s with
  | EmptyString => [EmptyString]
  | String c s' =>
      if Ascii.eqb c sep then EmptyString :: split sep s'
      else match split sep s' with
           | [] => [String c EmptyString]
           | f :: fs => String c f :: fs
           end
  end.

(** Line boundaries of [str.splitlines] below U+0100. *)
Definition is_linebreak (c : ascii) : bool :=
  let n := nat_of_ascii c in
  ((10 <=? n) && (n <=? 13) || (28 <=? n) && (n <=? 30) || (n =? 133))%nat.

(** [s.splitlines()]: a carriage return followed by a line feed is one
    boundary, and a final boundary opens no further line. *)
Fixpoint splitlines (s : string) : list string :=
  match s with
  | EmptyString => []
  | String c rest =>
      if is_linebreak c then
        EmptyString ::
        match rest with
        | String d rest' =>
            if Ascii.eqb c "013" && Ascii.eqb d "010" then splitlines rest'
            else splitlines rest
        | EmptyString => []
        end
      else
        match splitlines rest with
        | [] => [String c EmptyString]
        | l :: ls => String c l :: ls
        end
  end.

End Str.

(** ** The fragment of Python's [re] used by the hook

    Patterns are parsed the way [sre_parse] reads them and matched by
    backtracking.  Syntax outside the fragment (counted repetition, lazy
    and possessive quantifiers, look-ahead, back-references, named groups,
    inline flags, word boundaries) and syntax Python rejects both make
    [compile] answer [None]. *)

Module Re.

Local Open Scope nat_scope.

Inductive category := Word | Space | Digit.

Inductive item :=
| ItChar (c : ascii)
| ItRange (lo hi : ascii)
| ItCat (k : category) (negated : bool).

Inductive regex :=
| Eps
| Lit (c : ascii)
| Any
| In (negated : bool) (items : list item)
| Seq (r1 r2 : regex)
| Alt (r1 r2 : regex)
| Opt (r : regex)
| Star (r : regex)
| Plus (r : regex)
| Bol
| Eol
| Behind (w : nat) (r : regex)
| Group (r : regex).

(** Flags given to [re.compile]; the hook only ever passes [re.DOTALL]. *)
Record flags := { DOTALL : bool }.

Record pattern := { ast : regex; flag : flags }.

Definition code (c : ascii) : nat := nat_of_ascii c.

Definition between (lo hi n : nat) : bool := (lo <=? n) && (n <=? hi).

(** [str.isspace] on U+0000..U+00FF, which is what [\s] tests. *)
Definition is_space (c : ascii) : bool :=
  let n := code c in
  between 9 13 n || between 28 32 n || (n =? 133) || (n =? 160).

(** Decimal digits ([\d]) below U+0100. *)
Definition is_digit (c : ascii) : bool := between 48 57 (code c).

(** [str.isalnum] or underscore on U+0000..U+00FF, which is what [\w]
    tests on a [str] pattern. *)
Definition is_word (c : ascii) : bool :=
  let n := code c in
  between 48 57 n || between 65 90 n || (n =? 95) || between 97 122 n ||
  (n =? 170) || (n =? 178) || (n =? 179) || (n =? 181) || (n =? 185) ||
  (n =? 186) || between 188 190 n || between 192 214 n ||
  between 216 246 n || between 248 255 n.

Definition is_ascii_alnum (c : ascii) : bool :=
  let n := code c in
  between 48 57 n || between 65 90 n || between 97 122 n.

Definition in_category (k : category) (c : ascii) : bool :=
  match k with
  | Word => is_word c
  | Space => is_space c
  | Digit => is_digit c
  end.

Definition item_mem (it : item) (c : ascii) : bool :=
  match it with
  | ItChar d => Ascii.eqb c d
  | ItRange lo hi => between (code lo) (code hi) (code c)
  | ItCat k neg => xorb neg (in_category k c)
  end.

(** Does one character satisfy a one-character pattern node? *)
Definition char_ok (fl : flags) (r : regex) (c : ascii) : bool :=
  match r with
  | Lit d => Ascii.eqb c d
  | Any => DOTALL fl || negb (Ascii.eqb c "010")
  | In neg items => xorb neg (existsb (fun it => item_mem it c) items)
  | _ => false
  end.

(** Nodes that consume exactly one character. *)
Definition one_char (r : regex) : bool :=
  match r with
  | Lit _ | Any | In _ _ => true
  | _ => false
  end.

(** *** Matching *)

(** Greedy iteration of a body whose end positions are [step]; an
    iteration that does not advance is not taken again. *)
Fixpoint iterate (step : nat -> list nat) (fuel i : nat) : list nat :=
  match fuel with
  | 0 => [i]
  | S fuel' =>
      (flat_map (fun e => if i <? e then iterate step fuel' e else [])
                (step i) ++ [i])%list
  end.

(** Where [$] holds: at the end of the text, and before a line feed that
    ends it. *)
Definition at_end (s : list ascii) (i : nat) : bool :=
  (i =? List.length s) ||
  ((S i =? List.length s) &&
   match nth_error s i with
   | Some c => Ascii.eqb c "010"
   | None => false
   end).

(** [ends fl r s i]: every position at which a match of [r] that starts
    at [i] can end, in the order a backtracking matcher tries them. *)
Fixpoint ends (fl : flags) (r : regex) (s : list ascii) (i : nat)
  : list nat :=
  match r with
  | Eps => [i]
  | Lit _ | Any | In _ _ =>
      match nth_error s i with
      | Some c => if char_ok fl r c then [S i] else []
      | None => []
      end
  | Seq r1 r2 => flat_map (ends fl r2 s) (ends fl r1 s i)
  | Alt r1 r2 => (ends fl r1 s i ++ ends fl r2 s i)%list
  | Opt r1 => (ends fl r1 s i ++ [i])%list
  | Star r1 => iterate (ends fl r1 s) (S (List.length s)) i
  | Plus r1 =>
      flat_map (iterate (ends fl r1 s) (S (List.length s))) (ends fl r1 s i)
  | Bol => if i =? 0 then [i] else []
  | Eol => if at_end s i then [i] else []
  | Behind w r1 =>
      if (w <=? i) && existsb (Nat.eqb i) (ends fl r1 s (i - w))
      then [i] else []
  | Group r1 => ends fl r1 s i
  end.

(** The same as a relation: [reach fl s r i e] holds when [r] matches the
    text of [s] from position [i] up to position [e]. *)
Inductive reach (fl : flags) (s : list ascii) : regex -> nat -> nat -> Prop :=
| reach_eps i : reach fl s Eps i i
| reach_char r i c :
    one_char r = true -> nth_error s i = Some c -> char_ok fl r c = true ->
    reach fl s r i (S i)
| reach_seq r1 r2 i m e :
    reach fl s r1 i m -> reach fl s r2 m e -> reach fl s (Seq r1 r2) i e
| reach_alt_l r1 r2 i e : reach fl s r1 i e -> reach fl s (Alt r1 r2) i e
| reach_alt_r r1 r2 i e : reach fl s r2 i e -> reach fl s (Alt r1 r2) i e
| reach_opt_some r i e : reach fl s r i e -> reach fl s (Opt r) i e
| reach_opt_none r i : reach fl s (Opt r) i i
| reach_star_stop r i : reach fl s (Star r) i i
| reach_star_step r i m e :
    reach fl s r i m -> reach fl s (Star r) m e -> reach fl s (Star r) i e
| reach_plus r i m e :
    reach fl s r i m -> reach fl s (Star r) m e -> reach fl s (Plus r) i e
| reach_bol : reach fl s Bol 0 0
| reach_eol i : at_end s i = true -> reach fl s Eol i i
| reach_behind w r i :
    w <= i -> reach fl s r (i - w) i -> reach fl s (Behind w r) i i
| reach_group r i e : reach fl s r i e -> reach fl s (Group r) i e.

(** The text [x] lies between the positions [i] and [e] of [s]. *)
Definition spans (s : list ascii) (i e : nat) (x : list ascii) : Prop :=
  skipn i s = (x ++ skipn e s)%list /\ e = i + List.length x.

(** The text between two positions. *)
Definition slice (s : list ascii) (i e : nat) : string :=
  string_of_list_ascii (firstn (e - i) (skipn i s)).

(** [pattern.match(s)]: the end of the match at position 0, if any. *)
Definition match_ (p : pattern) (s : string) : option nat :=
  hd_error (ends (flag p) (ast p) (list_ascii_of_string s) 0).

(** The first end position a search at [i] may take; after an empty match
    the next match at the same position must not be empty. *)
Definition pick (must_advance : bool) (i : nat) (es : list nat)
  : option nat :=
  List.find (fun e => negb (must_advance && (e =? i))) es.

Fixpoint scan (p : pattern) (s : list ascii) (fuel i : nat)
  (must_advance : bool) : list string :=
  match fuel with
  | 0 => []
  | S fuel' =>
      if List.length s <? i then []
      else match pick must_advance i (ends (flag p) (ast p) s i) with
           | Some e => slice s i e :: scan p s fuel' e (e =? i)
           | None => scan p s fuel' (S i) false
           end
  end.

(** [pattern.findall(s)] for a pattern without capturing groups: the
    matched texts, left to right, not overlapping. *)
Definition findall (p : pattern) (s : string) : list string :=
  let l := list_ascii_of_string s in
  scan p l (2 * List.length l + 2) 0 false.

(** *** Parsing *)

(** Width of a pattern that can stand in a look-behind. *)
Fixpoint width (r : regex) : option nat :=
  match r with
  | Eps | Bol | Eol | Behind _ _ => Some 0
  | Lit _ | Any | In _ _ => Some 1
  | Seq r1 r2 =>
      match width r1, width r2 with
      | Some a, Some b => Some (a + b)
      | _, _ => None
      end
  | Alt r1 r2 =>
      match width r1, width r2 with
      | Some a, Some b => if a =? b then Some a else None
      | _, _ => None
      end
  | Group r1 => width r1
  | Opt _ | Star _ | Plus _ => None
  end.

(** A backslash followed by [c]. *)
Definition escape (c : ascii) : option item :=
  if Ascii.eqb c "w" then Some (ItCat Word false)
  else if Ascii.eqb c "W" then Some (ItCat Word true)
  else if Ascii.eqb c "s" then Some (ItCat Space false)
  else if Ascii.eqb c "S" then Some (ItCat Space true)
  else if Ascii.eqb c "d" then Some (ItCat Digit false)
  else if Ascii.eqb c "D" then Some (ItCat Digit true)
  else if Ascii.eqb c "n" then Some (ItChar "010")
  else if Ascii.eqb c "t" then Some (ItChar "009")
  else if Ascii.eqb c "r" then Some (ItChar "013")
  else if Ascii.eqb c "f" then Some (ItChar "012")
  else if Ascii.eqb c "v" then Some (ItChar "011")
  else if is_ascii_alnum c then None
  else Some (ItChar c).

(** One member of a character set: a character or an escape. *)
Definition class_atom (s : list ascii) : option (item * list ascii) :=
  match s with
  | [] => None
  | c :: rest =>
      if Ascii.eqb c "\" then
        match rest with
        | [] => None
        | d :: rest' =>
            match escape d with
            | Some it => Some (it, rest')
            | None => None
            end
        end
      else Some (ItChar c, rest)
  end.

(** The members of a character set up to its closing bracket; [first]
    holds while nothing has been read, where a bracket is a member. *)
Fixpoint parse_items (fuel : nat) (first : bool) (s : list ascii)
  : option (list item * list ascii) :=
  match fuel with
  | 0 => None
  | S fuel' =>
      match s with
      | [] => None
      | c :: rest =>
          if Ascii.eqb c "]" && negb first then Some ([], rest)
          else
            match class_atom s with
            | None => None
            | Some (it1, rest1) =>
                match rest1 with
                | d :: rest2 =>
                    if Ascii.eqb d "-" then
                      match rest2 with
                      | [] => None
                      | e :: rest3 =>
                          if Ascii.eqb e "]"
                          then Some ([it1; ItChar "-"], rest3)
                          else
                            match class_atom rest2 with
                            | Some (it2, rest4) =>
                                match it1, it2 with
                                | ItChar lo, ItChar hi =>
                                    if code lo <=? code hi then
                                      match parse_items fuel' false rest4 with
                                      | Some (its, rest5) =>
                                          Some (ItRange lo hi :: its, rest5)
                                      | None => None
                                      end
                                    else None
                                | _, _ => None
                                end
                            | None => None
                            end
                      end
                    else
                      match parse_items fuel' false rest1 with
                      | Some (its, rest5) => Some (it1 :: its, rest5)
                      | None => None
                      end
                | [] => None
                end
            end
      end
  end.

Definition is_quantifier (c : ascii) : bool :=
  Ascii.eqb c "?" || Ascii.eqb c "*" || Ascii.eqb c "+" || Ascii.eqb c "{".

Definition quantify (q : ascii) (r : regex) : regex :=
  if Ascii.eqb q "?" then Opt r
  else if Ascii.eqb q "*" then Star r
  else Plus r.

(** An atom followed by at most one of [?], [*], [+]. *)
Definition parse_suffix (a : regex) (repeatable : bool) (rest : list ascii)
  : option (regex * list ascii) :=
  match rest with
  | q :: rest' =>
      if is_quantifier q then
        if negb repeatable || Ascii.eqb q "{" then None
        else match rest' with
             | q' :: _ =>
                 if is_quantifier q' then None
                 else Some (quantify q a, rest')
             | [] => Some (quantify q a, rest')
             end
      else Some (a, rest)
  | [] => Some (a, rest)
  end.

Definition expect_close (r : option (regex * list ascii))
  : option (regex * list ascii) :=
  match r with
  | Some (r1, c :: rest) => if Ascii.eqb c ")" then Some (r1, rest) else None
  | _ => None
  end.

Definition seq (r1 r2 : regex) : regex :=
  match r2 with
  | Eps => r1
  | _ => Seq r1 r2
  end.

Fixpoint parse_alt (fuel : nat) (s : list ascii)
  : option (regex * list ascii) :=
  match fuel with
  | 0 => None
  | S fuel' =>
      match parse_seq fuel' s with
      | Some (r1, c :: rest) =>
          if Ascii.eqb c "|" then
            match parse_alt fuel' rest with
            | Some (r2, rest') => Some (Alt r1 r2, rest')
            | None => None
            end
          else Some (r1, c :: rest)
      | other => other
      end
  end
with parse_seq (fuel : nat) (s : list ascii)
  : option (regex * list ascii) :=
  match fuel with
  | 0 => None
  | S fuel' =>
      match s with
      | [] => Some (Eps, [])
      | c :: _ =>
          if Ascii.eqb c "|" || Ascii.eqb c ")" then Some (Eps, s)
          else
            match parse_atom fuel' s with
            | Some (a, repeatable, rest) =>
                match parse_suffix a repeatable rest with
                | Some (piece, rest') =>
                    match parse_seq fuel' rest' with
                    | Some (tail, rest'') => Some (seq piece tail, rest'')
                    | None => None
                    end
                | None => None
                end
            | None => None
            end
      end
  end
with parse_atom (fuel : nat) (s : list ascii)
  : option (regex * bool * list ascii) :=
  match fuel with
  | 0 => None
  | S fuel' =>
      match s with
      | [] => None
      | c :: rest =>
          if Ascii.eqb c "(" then
            match rest with
            | q :: rest1 =>
                if Ascii.eqb q "?" then
                  match rest1 with
                  | k :: rest2 =>
                      if Ascii.eqb k ":" then
                        match expect_close (parse_alt fuel' rest2) with
                        | Some (r, rest') => Some (r, true, rest')
                        | None => None
                        end
                      else if Ascii.eqb k "<" then
                        match rest2 with
                        | e :: rest3 =>
                            if Ascii.eqb e "=" then
                              match expect_close (parse_alt fuel' rest3) with
                              | Some (r, rest') =>
                                  match width r with
                                  | Some w => Some (Behind w r, false, rest')
                                  | None => None
                                  end
                              | None => None
                              end
                            else None
                        | [] => None
                        end
                      else None
                  | [] => None
                  end
                else
                  match expect_close (parse_alt fuel' rest) with
                  | Some (r, rest') => Some (Group r, true, rest')
                  | None => None
                  end
            | [] => None
            end
          else if Ascii.eqb c "[" then
            match rest with
            | n :: rest1 =>
                if Ascii.eqb n "^" then
                  match parse_items fuel' true rest1 with
                  | Some (its, rest') => Some (In true its, true, rest')
                  | None => None
                  end
                else
                  match parse_items fuel' true rest with
                  | Some (its, rest') => Some (In false its, true, rest')
                  | None => None
                  end
            | [] => None
            end
          else if Ascii.eqb c "\" then
            match rest with
            | d :: rest' =>
                match escape d with
                | Some (ItChar x) => Some (Lit x, true, rest')
                | Some it => Some (In false [it], true, rest')
                | None => None
                end
            | [] => None
            end
          else if Ascii.eqb c "." then Some (Any, true, rest)
          else if Ascii.eqb c "^" then Some (Bol, false, rest)
          else if Ascii.eqb c "$" then Some (Eol, false, rest)
          else if is_quantifier c then None
          else Some (Lit c, true, rest)
      end
  end.

(** How many characters at the head of [l] satisfy [P]. *)
Fixpoint run (P : ascii -> bool) (l : list ascii) : nat :=
  match l with
  | c :: l' => if P c then S (run P l') else 0
  | [] => 0
  end.

(** The pattern a run of ordinary characters parses to. *)
Fixpoint lits (w : list ascii) : regex :=
  match w with
  | [] => Eps
  | c :: w' => seq (Lit c) (lits w')
  end.

(** The pattern alternatives of ordinary text parse to. *)
Fixpoint alts (ts : list (list ascii)) : regex :=
  match ts with
  | [] => Eps
  | t :: ts' =>
      match ts' with
      | [] => lits t
      | _ :: _ => Alt (lits t) (alts ts')
      end
  end.

(** Texts joined by a bar. *)
Fixpoint bars (ts : list (list ascii)) : list ascii :=
  match ts with
  | [] => []
  | t :: ts' =>
      match ts' with
      | [] => t
      | _ :: _ => t ++ "|"%char :: bars ts'
      end
  end.

(** Characters the parser reads as themselves. *)
Definition ordinary (c : ascii) : bool :=
  negb (existsb (Ascii.eqb c) (list_ascii_of_string ".\[{()*+?^$|")).

(** Where a sequence of pieces stops. *)
Definition stops (k : list ascii) : bool :=
  match k with
  | [] => true
  | c :: _ => Ascii.eqb c "|" || Ascii.eqb c ")"
  end.

(** [re.compile(source, flags)]. *)
Definition compile (source : string) (fl : flags) : option pattern :=
  let l := list_ascii_of_string source in
  match parse_alt (4 * List.length l + 4) l with
  | Some (r, []) => Some {| ast := r; flag := fl |}
  | _ => None
  end.

End Re.

(** ** [pathlib] paths, POSIX flavour *)

Module Path.

(** A parsed path: its root (empty, one slash or two) and its components. *)
Record t := { root : string; parts : list string }.

(** How many leading slashes count as the root: one, or exactly two. *)
Definition splitroot (s : string) : string * string :=
  match s with
  | String "/" (String "/" (String "/" r)) => ("/", String "/" (String "/" r))
  | String "/" (String "/" r) => ("//", r)
  | String "/" r => ("/", r)
  | _ => ("", s)
  end.

Definition keep_part (x : string) : bool :=
  negb (String.eqb x "") && negb (String.eqb x ".").

(** [Path(s)]: empty components and single dots are dropped. *)
Definition parse (s : string) : t :=
  let (r, rel) := splitroot s in
  {| root := r; parts := filter keep_part (Str.split "/" rel) |}.

(** [p == q]. *)
Definition eqb (p q : t) : bool :=
  String.eqb (root p) (root q) &&
  if list_eq_dec string_dec (parts p) (parts q) then true else false.

Fixpoint prefixes (l : list string) : list (list string) :=
  match l with
  | [] => []
  | x :: l' => [] :: map (cons x) (prefixes l')
  end.

(** [p.parents]: the path without its last component, then without its
    last two, and so on up to the bare root. *)
Definition parents (p : t) : list t :=
  map (fun ps => {| root := root p; parts := ps |}) (rev (prefixes (parts p))).

(** [q in p.parents]. *)
Definition is_parent (q p : t) : bool := existsb (eqb q) (parents p).

End Path.

(** ** Effects of the hook

    What the hook does to the outside is a log of events; what the outside
    does to the hook is given beforehand: the parsed command line, the
    result of reading the message file and the result [git diff] will
    have. *)

Inductive event :=
| Ran (argv : list string)
| Printed (text : string).

Inductive exn :=
| ReError        (* re.error, or a pattern outside the embedded fragment *)
| RunError       (* subprocess.run raised something it does not catch *)
| OpenError.     (* the message file could not be opened or read *)

Inductive outcome (A : Type) :=
| Return (a : A)
| Raise (e : exn).

Arguments Return {A} a.
Arguments Raise {A} e.

Definition M (A : Type) : Type := outcome A * list event.

Definition ret {A} (a : A) : M A := (Return a, []).

Definition raise {A} (e : exn) : M A := (Raise e, []).

Definition bind {A B} (m : M A) (f : A -> M B) : M B :=
  match m with
  | (Return a, l) => let (r, l') := f a in (r, (l ++ l')%list)
  | (Raise e, l) => (Raise e, l)
  end.

Notation "x <- m ;; k" := (bind m (fun x => k))
  (at level 61, m at next level, right associativity).
Notation "m ;;; k" := (bind m (fun _ => k))
  (at level 61, right associativity).

Definition print (text : string) : M unit := (Return tt, [Printed text]).

Definition re_compile (source : string) (fl : Re.flags) : M Re.pattern :=
  match Re.compile source fl with
  | Some p => ret p
  | None => raise ReError
  end.

(** What [subprocess.run(..., check=True)] does. *)
Inductive run_result :=
| Completed (stdout : string)
| CalledProcessError (text : string)   (* non-zero exit; [text] is str(e) *)
| RunFailure.                          (* any other exception *)

(** What reading the message file does. *)
Inductive read_result :=
| ReadOk (text : string)
| UnicodeDecodeError
| ReadFailure.

(** [subprocess.run] inside [try ... except CalledProcessError]: the
    caught exception comes back on the right. *)
Definition subprocess_run (git : run_result) (argv : list string)
  : M (string + string) :=
  match git with
  | Completed out => (Return (inl out), [Ran argv])
  | CalledProcessError e => (Return (inr e), [Ran argv])
  | RunFailure => (Raise RunError, [Ran argv])
  end.

(** ** Module constants *)

Definition RESULT_SUCCESS : nat := 0.
Definition RESULT_FAIL : nat := 1.

Definition CONVENTIONAL_TYPES : list string := ["feat"; "fix"].

Definition DEFAULT_TYPES : list string :=
  ["ci"; "docs"; "feat"; "fix"; "ref"; "refactor"; "style"; "test"; "meta";
   "chore"].

Definition nl : string := String "010" "".
Definition esc : string := String "027" "".

Definition LBLUE : string := esc ++ "[00;34m".
Definition LRED : string := esc ++ "[01;31m".
Definition RESTORE : string := esc ++ "[0m".
Definition YELLOW : string := esc ++ "[00;33m".

(** ** Grammar builder *)

Definition r_types (types : list string) : string := Str.join "|" types.

Definition r_scope (optional : bool) : string :=
  "(\([\w \/:-]+\))" ++ (if optional then "?" else "").

Definition r_delim : string := "!?:".

Definition r_subject : string := " .+".

(** [set(types) & set(CONVENTIONAL_TYPES) == set()] decides which list is
    returned. *)
Definition conventional_types (types : list string) : list string :=
  match set_inter string_dec types CONVENTIONAL_TYPES with
  | [] => (CONVENTIONAL_TYPES ++ types)%list
  | _ :: _ => types
  end.

(** ** Special-commit detector *)

Definition is_special_commit (input : string) : bool :=
  let merge_strings := ["Merged in "; "Merge branch "] in
  let revert_string := "This reverts commit " in
  if existsb (fun merge_str => Str.contains merge_str input) merge_strings
  then true
  else if Str.contains revert_string input then true
  else false.

(** ** Classifier *)

(** The local [pattern] of [is_conventional], from its arguments. *)
Definition is_conventional_pattern (types : list string)
  (optional_scope : bool) : string :=
  let types := conventional_types types in
  "^(" ++ r_types types ++ ")" ++ r_scope optional_scope ++ r_delim
  ++ r_subject ++ "$".

Definition is_conventional (input : string) (types : list string)
  (optional_scope : bool) : M bool :=
  if is_special_commit input then ret false
  else
    regex <- re_compile (is_conventional_pattern types optional_scope)
                        {| Re.DOTALL := true |} ;;
    ret (match Re.match_ regex input with Some _ => true | None => false end).

(** What the scope group parses to. *)
Definition scope_class : Re.regex :=
  Re.In false [Re.ItCat Re.Word false; Re.ItChar " "; Re.ItChar "/";
               Re.ItChar ":"; Re.ItChar "-"].

Definition scope_group : Re.regex :=
  Re.Group (Re.Seq (Re.Lit "(") (Re.Seq (Re.Plus scope_class) (Re.Lit ")"))).

(** What follows the types in the pattern. *)
Definition tail_ast (optional_scope : bool) : Re.regex :=
  Re.Seq (if optional_scope then Re.Opt scope_group else scope_group)
    (Re.Seq (Re.Opt (Re.Lit "!"))
       (Re.Seq (Re.Lit ":")
          (Re.Seq (Re.Lit " ") (Re.Seq (Re.Plus Re.Any) Re.Eol)))).

(** What the pattern of [is_conventional] parses to when the effective
    types are ordinary text. *)
Definition conventional_ast (types : list string) (optional_scope : bool)
  : Re.regex :=
  Re.Seq Re.Bol
    (Re.Seq (Re.Group (Re.alts (map list_ascii_of_string types)))
            (tail_ast optional_scope)).

(** ** Touched-path resolver *)

Definition no_flags : Re.flags := {| Re.DOTALL := false |}.

Definition git_diff_argv : list string :=
  ["git"; "diff"; "--cached"; "--name-only"; "--diff-filter=ACDMRT"].

(** What [\S] parses to. *)
Definition not_space : Re.regex := Re.In false [Re.ItCat Re.Space true].

(** What [(?<=label)\S+] compiles to when the label is ordinary text. *)
Definition label_pattern (label : string) : Re.pattern :=
  let l := list_ascii_of_string label in
  {| Re.ast := Re.Seq (Re.Behind (List.length l) (Re.lits l))
                      (Re.Plus not_space);
     Re.flag := no_flags |}.

(** The paths named after the status labels, in the order of the four
    patterns. *)
Definition status_matches (input : string) : M (list Path.t) :=
  modified <- re_compile "(?<=modified:   )\S+" no_flags ;;
  added <- re_compile "(?<=new file:   )\S+" no_flags ;;
  removed <- re_compile "(?<=deleted:    )\S+" no_flags ;;
  renamed <- re_compile "(?<=renamed:    )\S+" no_flags ;;
  let status_tokens := [modified; added; removed; renamed] in
  ret (flat_map (fun regex => map Path.parse (Re.findall regex input))
                status_tokens).

Definition get_modified_filepaths (git : run_result) (input : string)
  : M (list Path.t) :=
  modified_files <- status_matches input ;;
  match modified_files with
  | [] =>
      result <- subprocess_run git git_diff_argv ;;
      match result with
      | inl stdout =>
          ret (modified_files ++ map Path.parse (Str.splitlines stdout))%list
      | inr e =>
          print ("Failed to get modified files. Error: " ++ e) ;;;
          ret modified_files
      end
  | _ :: _ => ret modified_files
  end.

(** ** Entry point *)

Record Namespace := {
  types : list string;
  limit_to : option (list string);
  optional_scope : bool;
  input : string
}.

Definition bad_encoding_text : string :=
  nl
  ++ "        " ++ LRED ++ "[Bad commit message encoding] " ++ RESTORE ++ nl
  ++ nl
  ++ "        " ++ YELLOW ++ "conventional-pre-commit couldn't decode your commit message." ++ RESTORE ++ nl
  ++ "        " ++ YELLOW ++ "UTF-8" ++ RESTORE ++ " encoding is assumed, please configure git to write commit messages in UTF-8." ++ nl
  ++ "        See " ++ LBLUE ++ "https://git-scm.com/docs/git-commit/#_discussion" ++ RESTORE ++ " for more." ++ nl
  ++ "        ".

Definition bad_message_text (message : string) (types : list string)
  : string :=
  nl
  ++ "        " ++ LRED ++ "[Bad commit message] >>" ++ RESTORE ++ " " ++ message ++ nl
  ++ "        " ++ YELLOW ++ "Your commit message does not follow conventional commits formatting" ++ nl
  ++ "        " ++ LBLUE ++ "https://www.conventionalcommits.org" ++ YELLOW ++ nl
  ++ nl
  ++ "        Conventional commits start with one of the below types, followed by a colon," ++ nl
  ++ "        followed by the commit message:" ++ RESTORE ++ nl
  ++ nl
  ++ "            " ++ Str.join ", " (conventional_types types) ++ nl
  ++ nl
  ++ "        " ++ YELLOW ++ "Example commit message adding a feature:" ++ RESTORE ++ nl
  ++ nl
  ++ "            feat: enable `/metrics` endpoint for prometheus" ++ nl
  ++ nl
  ++ "        " ++ YELLOW ++ "Example commit message fixing an issue:" ++ RESTORE ++ nl
  ++ nl
  ++ "            fix: remove infinite loop" ++ nl
  ++ nl
  ++ "        " ++ YELLOW ++ "Example commit with scope in parentheses after the type for more context:" ++ RESTORE ++ nl
  ++ nl
  ++ "            fix(atlantis): forbid running `atlantis apply` w/o pr approval".

(** Does a touched path lie under one of the limited paths?  The inner
    loop of [main], which stops at the first limited path that fits. *)
Definition under_limit (limited_paths : list string)
  (modified_filepath : Path.t) : bool :=
  existsb (fun single_limited_path =>
             let limited_path := Path.parse single_limited_path in
             Path.is_parent limited_path modified_filepath
             || Path.eqb modified_filepath limited_path)
          limited_paths.

(** The limited paths [main] works with. *)
Definition limited_paths_of (limit_to : list string) : list string :=
  match limit_to with
  | first :: _ => Str.split "," first
  | [] => []
  end.

(** The [if args.limit_to:] block; [true] stands for its early
    [return RESULT_SUCCESS]. *)
Definition limit_check (git : run_result) (limit_to : option (list string))
  (message : string) : M bool :=
  match limit_to with
  | Some (first :: rest) =>
      modified_filepaths <- get_modified_filepaths git message ;;
      let limited_paths := limited_paths_of (first :: rest) in
      let modified_directories_for_commit_check :=
        filter (under_limit limited_paths) modified_filepaths in
      ret (match modified_directories_for_commit_check with
           | [] => true
           | _ :: _ => false
           end)
  | _ => ret false
  end.

(** The last statement of [main]: classify the message and report. *)
Definition check_message (message : string) (types : list string)
  (optional_scope : bool) : M nat :=
  conventional <- is_conventional message types optional_scope ;;
  if conventional then ret RESULT_SUCCESS
  else
    print (bad_message_text message types) ;;;
    ret RESULT_FAIL.

(** [main], after [parse_args] ([None]: it exited) and [open(...).read()]. *)
Definition main (parsed : option Namespace) (file : read_result)
  (git : run_result) : M nat :=
  match parsed with
  | None => ret RESULT_FAIL
  | Some args =>
      match file with
      | UnicodeDecodeError => print bad_encoding_text ;;; ret RESULT_FAIL
      | ReadFailure => raise OpenError
      | ReadOk message =>
          out_of_scope <- limit_check git (limit_to args) message ;;
          if out_of_scope then ret RESULT_SUCCESS
          else check_message message (types args) (optional_scope args)
      end
  end.

(** The command line of the end-to-end examples. *)
Definition example_args (limit : list string) : Namespace :=
  {| types := ["feat"; "fix"]; limit_to := Some limit;
     optional_scope := true; input := "commit_msg.txt" |}.

(** How often a log shows a process being run. *)
Definition queries (log : list event) : nat :=
  List.length (filter (fun e => match e with Ran _ => true | _ => false end)
                      log).

(** ** The specification's wording, for comparison with the code *)

Module Spec.

(** The pattern as the specification spells it out, from a list of types
    taken as given. *)
Definition claimed_pattern (T : list string) (o : bool) : string :=
  "^(" ++ Str.join "|" T ++ "(\([\w \/:-]+\))" ++ (if o then "?" else "")
  ++ "!?:" ++ " " ++ ".+" ++ "$".

(** The same with the group of types closed. *)
Definition claimed_pattern_closed (T : list string) (o : bool) : string :=
  "^(" ++ Str.join "|" T ++ ")" ++ "(\([\w \/:-]+\))"
  ++ (if o then "?" else "") ++ "!?:" ++ " " ++ ".+" ++ "$".

(** A type without characters that mean something in a pattern. *)
Definition plain (t : string) : bool :=
  forallb Re.ordinary (list_ascii_of_string t).

(** Characters a scope may hold. *)
Definition scope_char (c : ascii) : bool :=
  Re.is_word c || Ascii.eqb c " " || Ascii.eqb c "/" || Ascii.eqb c ":"
  || Ascii.eqb c "-".

(** A scope: a non-empty text of scope characters in parentheses; it may
    be missing when the scope is optional. *)
Definition is_scope (o : bool) (scope : string) : Prop :=
  (o = true /\ scope = "") \/
  exists w, w <> "" /\
            forallb scope_char (list_ascii_of_string w) = true /\
            scope = "(" ++ w ++ ")".

(** The whole message is a type, a scope, an optional "!", a colon, a
    space and a text that is not empty. *)
Definition conforms (types : list string) (o : bool) (s : string) : Prop :=
  exists t scope bang rest,
    In t types /\ is_scope o scope /\ (bang = "" \/ bang = "!") /\
    rest <> "" /\ s = t ++ scope ++ bang ++ ": " ++ rest.

(** A path token: the longest run of characters that are not whitespace
    at the head of a text. *)
Fixpoint token (s : list ascii) : list ascii :=
  match s with
  | c :: s' => if Re.is_space c then [] else c :: token s'
  | [] => []
  end.

(** The label stands immediately before position [i]. *)
Definition label_before (label s : list ascii) (i : nat) : bool :=
  (List.length label <=? i)%nat &&
  if list_eq_dec ascii_dec
       (firstn (List.length label) (skipn (i - List.length label) s)) label
  then true else false.

(** The token found at position [i], when the label stands before it. *)
Definition token_after (label s : list ascii) (i : nat) : list string :=
  if label_before label s i then
    match token (skipn i s) with
    | [] => []
    | t => [string_of_list_ascii t]
    end
  else [].

(** All tokens that follow the label, in the order they appear. *)
Definition labelled (label text : string) : list string :=
  let s := list_ascii_of_string text in
  flat_map (token_after (list_ascii_of_string label) s)
           (seq 0 (S (List.length s))).

(** The touched paths named in a message: modified, then added, then
    removed, then renamed. *)
Definition touched_by_labels (text : string) : list Path.t :=
  map Path.parse
      (labelled "modified:   " text ++ labelled "new file:   " text ++
       labelled "deleted:    " text ++ labelled "renamed:    " text)%list.

(** [q] is a proper ancestor directory of [p]. *)
Definition proper_ancestor (q p : Path.t) : Prop :=
  Path.root q = Path.root p /\
  exists rest, rest <> [] /\ Path.parts p = (Path.parts q ++ rest)%list.

(** [p] falls under the filter path [q]. *)
Definition falls_under (p q : Path.t) : Prop :=
  p = q \/ proper_ancestor q p.

End Spec.

(** * Properties *)

(** ** Strings *)

Lemma startswith_iff_app (a s : string) :
  Str.startswith a s = true <-> exists post, s = a ++ post.
Proof.
  revert s; induction a as [|c a IH]; intros s; simpl.
  - split; [intros _; now exists s | reflexivity].
  - destruct s as [|d s].
    + split; [discriminate | intros [post H]; discriminate].
    + rewrite andb_true_iff, IH, Ascii.eqb_eq. split.
      * intros [-> [post ->]]. now exists post.
      * intros [post H]. injection H as -> ->. split; [reflexivity|].
        now exists post.
Qed.

Lemma contains_iff_occurs (sub s : string) :
  Str.contains sub s = true <-> Str.occurs_in sub s.
Proof.
  unfold Str.occurs_in.
  induction s as [|c s IH]; simpl.
  - rewrite orb_false_r, startswith_iff_app. split.
    + intros [post H]. now exists "", post.
    + intros [pre [post H]]. destruct pre; [|discriminate].
      now exists post.
  - rewrite orb_true_iff, startswith_iff_app, IH. split.
    + intros [[post H]|[pre [post H]]].
      * now exists "", post.
      * exists (String c pre), post. simpl. now rewrite H.
    + intros [pre [post H]]. destruct pre as [|d pre]; simpl in H.
      * left. now exists post.
      * right. injection H as _ H. now exists pre, post.
Qed.

(** ** Grammar builder *)

(** C1.  [conventional_types] adds the two mandatory types only when the
    caller's list holds neither of them: for the empty list it yields
    exactly "feat" and "fix", but the list holding only "feat" comes back
    unchanged, without "fix", and the list holding only "fix" comes back
    without "feat". *)
Theorem conventional_types_partial_overlap :
  conventional_types [] = ["feat"; "fix"] /\
  conventional_types ["feat"] = ["feat"] /\
  ~ In "fix" (conventional_types ["feat"]) /\
  conventional_types ["fix"] = ["fix"] /\
  ~ In "feat" (conventional_types ["fix"]).
Proof.
  repeat split; try reflexivity.
  - cbv [conventional_types]; simpl. intros [H|[]]; discriminate.
  - cbv [conventional_types]; simpl. intros [H|[]]; discriminate.
Qed.

(** C2, as the specification words it, fails on the code: the group of
    types is closed by a parenthesis, the types are the effective ones,
    and a type that holds pattern syntax can lift the anchoring: with the
    type "a)|(b" the message "feat and more", which has no colon, is
    conventional, and its match ends after four of thirteen characters. *)
Lemma pattern_differs_from_claim :
  is_conventional_pattern ["feat"; "fix"] true
    <> Spec.claimed_pattern ["feat"; "fix"] true /\
  is_conventional_pattern ["chore"] true
    <> Spec.claimed_pattern_closed ["chore"] true /\
  is_conventional "feat and more" ["a)|(b"] true = ret true /\
  option_map (fun regex => Re.match_ regex "feat and more")
    (Re.compile (is_conventional_pattern ["a)|(b"] true)
                {| Re.DOTALL := true |})
  = Some (Some 4).
Proof.
  split; [discriminate|]. split; [discriminate|]. split; reflexivity.
Qed.

(** ** Special commits *)

(** C3.  [is_special_commit s] is true exactly when one of "Merged in ",
    "Merge branch " and "This reverts commit " occurs somewhere in [s],
    and false otherwise. *)
Theorem is_special_commit_iff (s : string) :
  (is_special_commit s = true <->
   Str.occurs_in "Merged in " s \/ Str.occurs_in "Merge branch " s \/
   Str.occurs_in "This reverts commit " s) /\
  (is_special_commit s = false <->
   ~ (Str.occurs_in "Merged in " s \/ Str.occurs_in "Merge branch " s \/
      Str.occurs_in "This reverts commit " s)).
Proof.
  assert (E : is_special_commit s = true <->
   Str.occurs_in "Merged in " s \/ Str.occurs_in "Merge branch " s \/
   Str.occurs_in "This reverts commit " s).
  { rewrite <- !contains_iff_occurs. unfold is_special_commit. simpl.
    destruct (Str.contains "Merged in " s),
             (Str.contains "Merge branch " s),
             (Str.contains "This reverts commit " s); simpl; intuition. }
  split; [exact E|].
  rewrite <- E. destruct (is_special_commit s); intuition congruence.
Qed.

(** C4.  A message the special-commit detector flags is classified as not
    conventional, whatever the types and the scope policy; nothing is
    compiled or printed on the way. *)
Theorem special_commit_not_conventional
  (s : string) (T : list string) (o : bool) :
  is_special_commit s = true -> is_conventional s T o = ret false.
Proof.
  intros H. unfold is_conventional. now rewrite H.
Qed.

Lemma special_commit_not_conventional_witness :
  is_special_commit "Merged in feature1" = true /\
  is_conventional "Merged in feature1" ["fix"] false = ret false.
Proof.
  split; [reflexivity|].
  apply (special_commit_not_conventional "Merged in feature1" ["fix"] false).
  reflexivity.
Defined.

(** C5.  With the types "feat" and "fix" and an optional scope, a message
    whose header conforms stays conventional when a body follows it, and a
    body does not rescue a header that does not conform. *)
Theorem body_after_header :
  is_conventional
    ("feat: new feature" ++ nl ++ nl ++ "BREAKING CHANGES: ...")
    ["feat"; "fix"] true = ret true /\
  is_conventional
    ("invalid: not valid" ++ nl ++ nl ++ "BREAKING CHANGES: ...")
    ["feat"; "fix"] true = ret false /\
  is_conventional
    ("feat: new feature" ++ nl ++ nl ++
     "BREAKING CHANGES: changes that break backward compatibility")
    ["feat"; "fix"] true = ret true /\
  is_conventional
    ("invalid: not a valid message" ++ nl ++ nl ++
     "BREAKING CHANGES: changes that break backward compatibility")
    ["feat"; "fix"] true = ret false.
Proof.
  repeat split; vm_compute; reflexivity.
Qed.

(** C10.  The types go into the pattern as they are, so a type is read as
    a regular expression: with the vocabulary ["fe.t"] the message
    "fezt: x" is conventional although "fezt" is neither in the vocabulary
    nor one of "feat" and "fix". *)
Theorem types_are_not_escaped :
  exists (T : list string) (header rest : string),
    r_types T = "fe.t" /\
    (exists t, In t T /\ Str.contains "." t = true) /\
    ~ In header T /\ header <> "feat" /\ header <> "fix" /\
    is_conventional (header ++ ": " ++ rest) T true = ret true.
Proof.
  exists ["fe.t"], "fezt", "x". repeat split.
  - exists "fe.t". split; [now left | reflexivity].
  - intros [H|[]]; discriminate.
  - discriminate.
  - discriminate.
Qed.

(** ** The matcher on the patterns of the hook *)

Section Matcher.

Local Open Scope list_scope.
Local Open Scope nat_scope.

Variable fl : Re.flags.
Variable s : list ascii.

Lemma skipn_nth_error {A : Type} (l : list A) (i : nat) :
  skipn i l =
  match nth_error l i with
  | Some d => d :: skipn (S i) l
  | None => []
  end.
Proof.
  revert i; induction l as [|a l IH]; intros [|i]; try reflexivity.
  simpl. rewrite IH. now destruct (nth_error l i).
Qed.

Lemma ends_seq (a b : Re.regex) (i : nat) :
  Re.ends fl (Re.seq a b) s i = flat_map (Re.ends fl b s) (Re.ends fl a s i).
Proof.
  destruct b; try reflexivity.
  simpl. induction (Re.ends fl a s i) as [|e l IH]; simpl; congruence.
Qed.

Lemma ends_lits (w : list ascii) (i : nat) :
  Re.ends fl (Re.lits w) s i =
  if list_eq_dec ascii_dec (firstn (List.length w) (skipn i s)) w
  then [i + List.length w] else [].
Proof.
  revert i. induction w as [|c w IH]; intros i.
  - simpl. now rewrite Nat.add_0_r.
  - cbn [Re.lits]. rewrite ends_seq. cbn [Re.ends Re.char_ok List.length].
    rewrite (skipn_nth_error s i).
    destruct (nth_error s i) as [d|].
    + cbn [firstn].
      destruct (Ascii.eqb_spec d c) as [->|Hne]; cbn [flat_map].
      * rewrite IH, app_nil_r.
        destruct (list_eq_dec ascii_dec
                    (firstn (List.length w) (skipn (S i) s)) w) as [E|E];
        destruct (list_eq_dec ascii_dec
                    (c :: firstn (List.length w) (skipn (S i) s)) (c :: w))
          as [E'|E']; try reflexivity.
        -- f_equal. lia.
        -- elim E'. now rewrite E.
        -- elim E. now injection E'.
      * destruct (list_eq_dec ascii_dec
                    (d :: firstn (List.length w) (skipn (S i) s)) (c :: w))
          as [E'|E']; [|reflexivity].
        injection E' as E1 _. now elim Hne.
    + simpl. destruct (list_eq_dec ascii_dec [] (c :: w)); [discriminate|].
      reflexivity.
Qed.

Lemma ends_one_char (r : Re.regex) (i : nat) :
  Re.one_char r = true ->
  Re.ends fl r s i =
  match nth_error s i with
  | Some c => if Re.char_ok fl r c then [S i] else []
  | None => []
  end.
Proof. destruct r; try discriminate; reflexivity. Qed.

Lemma run_skipn (P : ascii -> bool) (i : nat) :
  Re.run P (skipn i s) =
  match nth_error s i with
  | Some c => if P c then S (Re.run P (skipn (S i) s)) else 0
  | None => 0
  end.
Proof.
  rewrite (skipn_nth_error s i). now destruct (nth_error s i).
Qed.

Lemma iterate_run (r : Re.regex) (fuel i : nat) :
  Re.one_char r = true ->
  List.length s <= fuel + i ->
  Re.iterate (Re.ends fl r s) fuel i =
  rev (seq i (S (Re.run (Re.char_ok fl r) (skipn i s)))).
Proof.
  intros Hr. revert i. induction fuel as [|fuel IH]; intros i Hlen.
  - rewrite skipn_all2 by lia. reflexivity.
  - cbn [Re.iterate]. rewrite (ends_one_char r i Hr), run_skipn.
    destruct (nth_error s i) as [c|]; [|reflexivity].
    destruct (Re.char_ok fl r c); [|reflexivity].
    cbn [flat_map]. replace (i <? S i) with true by (symmetry; apply Nat.ltb_lt; lia).
    rewrite IH by lia. rewrite app_nil_r.
    remember (Re.run (Re.char_ok fl r) (skipn (S i) s)) as k.
    change (seq i (S (S k))) with (i :: seq (S i) (S k)).
    reflexivity.
Qed.

Lemma ends_plus_run (r : Re.regex) (i : nat) :
  Re.one_char r = true ->
  Re.ends fl (Re.Plus r) s i =
  rev (seq (S i) (Re.run (Re.char_ok fl r) (skipn i s))).
Proof.
  intros Hr. cbn [Re.ends]. rewrite (ends_one_char r i Hr), run_skipn.
  destruct (nth_error s i) as [c|]; [|reflexivity].
  destruct (Re.char_ok fl r c); [|reflexivity].
  cbn [flat_map]. rewrite app_nil_r. apply iterate_run; [assumption|lia].
Qed.

Lemma run_not_space (l : list ascii) :
  Re.run (Re.char_ok fl not_space) l = List.length (Spec.token l).
Proof.
  induction l as [|c l IH]; [reflexivity|].
  cbn [Re.run Spec.token Re.char_ok not_space existsb Re.item_mem
       Re.in_category].
  destruct (Re.is_space c); simpl; congruence.
Qed.

Lemma ends_behind_lits (w : list ascii) (i : nat) :
  Re.ends fl (Re.Behind (List.length w) (Re.lits w)) s i =
  if Spec.label_before w s i then [i] else [].
Proof.
  cbn [Re.ends]. unfold Spec.label_before. rewrite ends_lits.
  destruct (List.length w <=? i) eqn:Hw; [|reflexivity].
  apply Nat.leb_le in Hw. cbn [andb].
  destruct (list_eq_dec ascii_dec _ w); [|reflexivity].
  cbn [existsb]. replace (i - List.length w + List.length w) with i by lia.
  now rewrite Nat.eqb_refl.
Qed.

Lemma ends_label (w : list ascii) (i : nat) :
  Re.ends fl (Re.Seq (Re.Behind (List.length w) (Re.lits w))
                     (Re.Plus not_space)) s i =
  if Spec.label_before w s i
  then rev (seq (S i) (List.length (Spec.token (skipn i s))))
  else [].
Proof.
  cbn [Re.ends].
  change (flat_map (Re.ends fl (Re.Plus not_space) s)
            (Re.ends fl (Re.Behind (List.length w) (Re.lits w)) s i) =
          if Spec.label_before w s i
          then rev (seq (S i) (List.length (Spec.token (skipn i s))))
          else []).
  rewrite ends_behind_lits.
  destruct (Spec.label_before w s i); [|reflexivity].
  cbn [flat_map]. rewrite app_nil_r, ends_plus_run by reflexivity.
  now rewrite run_not_space.
Qed.

Lemma token_nth (l : list ascii) (t : nat) :
  t < List.length (Spec.token l) ->
  exists c, nth_error l t = Some c /\ Re.is_space c = false.
Proof.
  revert t. induction l as [|c l IH]; intros t; simpl; [lia|].
  destruct (Re.is_space c) eqn:Hc; simpl; [lia|].
  destruct t as [|t]; [now exists c|].
  intros H. apply IH. lia.
Qed.

Lemma token_firstn (l : list ascii) :
  firstn (List.length (Spec.token l)) l = Spec.token l.
Proof.
  induction l as [|c l IH]; [reflexivity|]. simpl.
  destruct (Re.is_space c); simpl; congruence.
Qed.

Lemma token_length (l : list ascii) :
  List.length (Spec.token l) <= List.length l.
Proof.
  induction l as [|c l IH]; simpl; [lia|].
  destruct (Re.is_space c); simpl; lia.
Qed.

Lemma label_before_last (pre : list ascii) (sp : ascii) (j : nat) :
  Spec.label_before (pre ++ [sp]) s j = true ->
  0 < j /\ nth_error s (j - 1) = Some sp.
Proof.
  unfold Spec.label_before. rewrite length_app. cbn [List.length].
  intros H. apply andb_true_iff in H as [H1 H2]. apply Nat.leb_le in H1.
  destruct (list_eq_dec ascii_dec _ _) as [E|]; [|discriminate].
  split; [lia|].
  assert (N : nth_error (pre ++ [sp]) (List.length pre) = Some sp).
  { rewrite nth_error_app2, Nat.sub_diag by lia. reflexivity. }
  rewrite <- E, nth_error_firstn, nth_error_skipn in N.
  destruct (List.length pre <? List.length pre + 1); [|discriminate].
  rewrite <- N. f_equal. lia.
Qed.

Lemma flat_map_nil {A B : Type} (f : A -> list B) (l : list A) :
  (forall x, In x l -> f x = []) -> flat_map f l = [].
Proof.
  induction l as [|a l IH]; intros H; [reflexivity|]. simpl.
  rewrite (H a) by now left. apply IH. intros x Hx. apply H. now right.
Qed.

Lemma no_label_inside_token (pre : list ascii) (sp : ascii) (i j : nat) :
  Re.is_space sp = true ->
  i < j < i + List.length (Spec.token (skipn i s)) ->
  Spec.token_after (pre ++ [sp]) s j = [].
Proof.
  intros Hsp Hj. unfold Spec.token_after.
  destruct (Spec.label_before (pre ++ [sp]) s j) eqn:Hl; [|reflexivity].
  apply label_before_last in Hl as [_ Hl].
  destruct (token_nth (skipn i s) (j - 1 - i)) as (c & Hc & Hns); [lia|].
  rewrite nth_error_skipn in Hc.
  replace (i + (j - 1 - i)) with (j - 1) in Hc by lia.
  congruence.
Qed.

Lemma scan_label (pre : list ascii) (sp : ascii) (fuel i : nat) :
  Re.is_space sp = true ->
  S (List.length s) - i <= fuel ->
  Re.scan {| Re.ast := Re.Seq (Re.Behind (List.length (pre ++ [sp]))
                                         (Re.lits (pre ++ [sp])))
                              (Re.Plus not_space);
             Re.flag := fl |} s fuel i false =
  flat_map (Spec.token_after (pre ++ [sp]) s)
           (seq i (S (List.length s) - i)).
Proof.
  intros Hsp. revert i. induction fuel as [|fuel IH]; intros i Hf.
  - replace (S (List.length s) - i) with 0 by lia. reflexivity.
  - cbn [Re.scan Re.ast Re.flag].
    destruct (List.length s <? i) eqn:Hi.
    { apply Nat.ltb_lt in Hi.
      replace (S (List.length s) - i) with 0 by lia. reflexivity. }
    apply Nat.ltb_ge in Hi. rewrite ends_label.
    replace (S (List.length s) - i) with (S (List.length s - i)) by lia.
    cbn [seq flat_map]. unfold Spec.token_after at 1.
    destruct (Spec.label_before (pre ++ [sp]) s i) eqn:Hl.
    2:{ cbn [Re.pick find app]. rewrite IH by lia.
        now replace (S (List.length s) - S i) with (List.length s - i) by lia. }
    pose proof (token_length (skipn i s)) as Hk.
    pose proof (token_firstn (skipn i s)) as Hfirst.
    rewrite length_skipn in Hk.
    destruct (Spec.token (skipn i s)) as [|c t] eqn:Ht.
    { cbn [List.length seq rev Re.pick find app]. rewrite IH by lia.
      now replace (S (List.length s) - S i) with (List.length s - i) by lia. }
    cbn [List.length] in *. rewrite seq_S, rev_app_distr.
    cbn [rev app Re.pick find andb negb].
    replace (S i + List.length t =? i) with false
      by (symmetry; apply Nat.eqb_neq; lia).
    rewrite IH by lia. unfold Re.slice.
    replace (S i + List.length t - i) with (S (List.length t)) by lia.
    rewrite Hfirst. cbn [app]. f_equal.
    replace (List.length s - i)
      with (List.length t + (List.length s - i - List.length t)) by lia.
    rewrite seq_app, flat_map_app.
    rewrite (flat_map_nil (Spec.token_after (pre ++ [sp]) s)
                          (seq (S i) (List.length t))).
    2:{ intros j Hj. apply in_seq in Hj.
        apply (no_label_inside_token pre sp i j Hsp).
        rewrite Ht. cbn [List.length]. lia. }
    cbn [app]. f_equal. f_equal. lia.
Qed.

End Matcher.

(** ** The matcher against the relation *)

Section Semantics.

Local Open Scope list_scope.
Local Open Scope nat_scope.

Variable fl : Re.flags.
Variable s : list ascii.

Lemma reach_bounds (r : Re.regex) (i e : nat) :
  Re.reach fl s r i e -> i <= e /\ (i < e -> e <= List.length s).
Proof.
  induction 1; try lia.
  split; [lia|]. intros _.
  assert (i < List.length s) by (apply nth_error_Some; congruence). lia.
Qed.

Lemma iterate_last (step : nat -> list nat) (fuel i : nat) :
  In i (Re.iterate step fuel i).
Proof.
  destruct fuel; cbn [Re.iterate]; [now left|].
  apply in_app_iff. right. now left.
Qed.

Lemma iterate_sound (r : Re.regex) (step : nat -> list nat) :
  (forall i m, In m (step i) -> Re.reach fl s r i m) ->
  forall fuel i e, In e (Re.iterate step fuel i) ->
                   Re.reach fl s (Re.Star r) i e.
Proof.
  intros Hstep. induction fuel as [|fuel IH]; intros i e; cbn [Re.iterate].
  - intros [<-|[]]. constructor.
  - rewrite in_app_iff, in_flat_map. intros [(m & Hm & He)|[<-|[]]].
    + destruct (i <? m); [|destruct He].
      eapply Re.reach_star_step; eauto.
    + constructor.
Qed.

Lemma iterate_complete (r : Re.regex) :
  (forall i m, Re.reach fl s r i m -> In m (Re.ends fl r s i)) ->
  forall i e, Re.reach fl s (Re.Star r) i e ->
  forall fuel, List.length s - i <= fuel ->
               In e (Re.iterate (Re.ends fl r s) fuel i).
Proof.
  intros Hstep i e H. remember (Re.Star r) as r' eqn:Er.
  induction H; try discriminate; intros fuel Hf.
  - subst. discriminate.
  - apply iterate_last.
  - injection Er as ->. destruct (Nat.eq_dec i m) as [<-|Hne]; [now apply IHreach2|].
    apply reach_bounds in H as B.
    apply reach_bounds in H0 as B0.
    destruct fuel as [|fuel]; [lia|]. cbn [Re.iterate].
    apply in_app_iff. left. apply in_flat_map. exists m.
    split; [now apply Hstep|].
    replace (i <? m) with true by (symmetry; apply Nat.ltb_lt; lia).
    apply IHreach2; [reflexivity | lia].
Qed.

Ltac rewrite_matched :=
  repeat match goal with
         | H : nth_error _ _ = Some _ |- _ => rewrite H; clear H
         | H : Re.char_ok _ _ _ = true |- _ => rewrite H; clear H
         | H : Re.at_end _ _ = true |- _ => rewrite H; clear H
         end;
  now left.

(** The matcher lists exactly the positions the relation allows. *)
Theorem ends_reach (r : Re.regex) (i e : nat) :
  In e (Re.ends fl r s i) <-> Re.reach fl s r i e.
Proof.
  revert i e. induction r; intros i e; cbn [Re.ends].
  - split; [intros [<-|[]]; constructor | inversion 1; subst; try discriminate; now left].
  - split.
    + destruct (nth_error s i) as [d|] eqn:Hn; [|intros []].
      destruct (Re.char_ok fl (Re.Lit c) d) eqn:Hc; [|intros []].
      intros [<-|[]]. now apply Re.reach_char with d.
    + inversion 1; subst. rewrite_matched.
  - split.
    + destruct (nth_error s i) as [d|] eqn:Hn; [|intros []].
      destruct (Re.char_ok fl Re.Any d) eqn:Hc; [|intros []].
      intros [<-|[]]. now apply Re.reach_char with d.
    + inversion 1; subst. rewrite_matched.
  - split.
    + destruct (nth_error s i) as [d|] eqn:Hn; [|intros []].
      destruct (Re.char_ok fl (Re.In negated items) d) eqn:Hc; [|intros []].
      intros [<-|[]]. now apply Re.reach_char with d.
    + inversion 1; subst. rewrite_matched.
  - rewrite in_flat_map. split.
    + intros (m & Hm & He). apply Re.reach_seq with m; [now apply IHr1 | now apply IHr2].
    + inversion 1; subst; try discriminate. exists m. split; [now apply IHr1 | now apply IHr2].
  - rewrite in_app_iff, IHr1, IHr2. split.
    + intros [H|H]; [now apply Re.reach_alt_l | now apply Re.reach_alt_r].
    + inversion 1; subst; try discriminate; auto.
  - rewrite in_app_iff, IHr. split.
    + intros [H|[<-|[]]]; [now apply Re.reach_opt_some | apply Re.reach_opt_none].
    + inversion 1; subst; try discriminate; [now left | right; now left].
  - split.
    + apply iterate_sound. intros j m. apply IHr.
    + intros H. apply iterate_complete with (r := r); [intros j m; apply IHr | assumption | lia].
  - rewrite in_flat_map. split.
    + intros (m & Hm & He). apply Re.reach_plus with m; [now apply IHr|].
      revert He. apply iterate_sound. intros j k. apply IHr.
    + inversion 1; subst; try discriminate. exists m. split; [now apply IHr|].
      apply iterate_complete with (r := r); [intros j k; apply IHr | assumption | lia].
  - split.
    + destruct (Nat.eqb_spec i 0) as [->|]; [|intros []].
      intros [<-|[]]. constructor.
    + inversion 1; subst; try discriminate. now left.
  - split.
    + destruct (Re.at_end s i) eqn:Ha; [|intros []].
      intros [<-|[]]. now constructor.
    + inversion 1; subst; try discriminate. rewrite_matched.
  - split.
    + destruct (w <=? i) eqn:Hw; [|intros []]. cbn [andb].
      destruct (existsb (Nat.eqb i) (Re.ends fl r s (i - w))) eqn:Hx; [|intros []].
      intros [<-|[]]. apply existsb_exists in Hx as (x & Hx & E).
      apply Nat.eqb_eq in E as <-. apply Nat.leb_le in Hw.
      apply Re.reach_behind; [assumption | now apply IHr].
    + inversion 1; subst; try discriminate.
      replace (w <=? e) with true by (symmetry; now apply Nat.leb_le).
      cbn [andb].
      replace (existsb (Nat.eqb e) (Re.ends fl r s (e - w))) with true; [now left|].
      symmetry. apply existsb_exists. exists e. split; [now apply IHr | apply Nat.eqb_refl].
  - rewrite IHr. split; [now constructor | inversion 1; subst; try discriminate; assumption].
Qed.

End Semantics.

(** ** What the nodes of the hook's patterns match *)

Section Spans.

Local Open Scope list_scope.
Local Open Scope nat_scope.

Variable fl : Re.flags.
Variable s : list ascii.

Lemma skipn_after (i : nat) (x y : list ascii) :
  skipn i s = x ++ y -> skipn (i + List.length x) s = y.
Proof.
  intros H. rewrite Nat.add_comm, <- skipn_skipn, H, skipn_app.
  now rewrite Nat.sub_diag, skipn_all.
Qed.

Lemma spans_intro (i : nat) (x y : list ascii) :
  skipn i s = x ++ y -> Re.spans s i (i + List.length x) x.
Proof.
  intros H. split; [|reflexivity]. now rewrite (skipn_after i x y H).
Qed.

Lemma spans_app (i m e : nat) (x y : list ascii) :
  Re.spans s i m x -> Re.spans s m e y -> Re.spans s i e (x ++ y).
Proof.
  intros [H1 ->] [H2 ->]. split.
  - now rewrite H1, H2, app_assoc.
  - rewrite length_app. lia.
Qed.

Lemma spans_nil (i e : nat) : Re.spans s i e [] <-> e = i.
Proof.
  unfold Re.spans. cbn [app List.length]. rewrite Nat.add_0_r.
  split; [now intros [_ ->] | now intros ->].
Qed.

Lemma firstn_is_prefix (w l : list ascii) :
  firstn (List.length w) l = w <-> l = w ++ skipn (List.length w) l.
Proof.
  split; intros H.
  - rewrite <- H at 1. symmetry. apply firstn_skipn.
  - rewrite H, firstn_app, Nat.sub_diag, firstn_all. cbn [firstn].
    apply app_nil_r.
Qed.

Lemma reach_lits (w : list ascii) (i e : nat) :
  Re.reach fl s (Re.lits w) i e <-> Re.spans s i e w.
Proof.
  rewrite <- ends_reach, ends_lits. unfold Re.spans.
  destruct (list_eq_dec ascii_dec (firstn (List.length w) (skipn i s)) w)
    as [E|E]; cbn [In].
  - apply firstn_is_prefix in E. rewrite skipn_skipn in E. split.
    + intros [<-|[]]. split; [|reflexivity].
      now rewrite (Nat.add_comm i).
    + intros [_ ->]. now left.
  - split; [intros []|]. intros [H ->]. elim E.
    apply firstn_is_prefix. rewrite skipn_skipn.
    now rewrite (Nat.add_comm (List.length w)).
Qed.

Lemma reach_lit (c : ascii) (i e : nat) :
  Re.reach fl s (Re.Lit c) i e <-> Re.spans s i e [c].
Proof. apply (reach_lits [c]). Qed.

Lemma reach_alt_iff (a b : Re.regex) (i e : nat) :
  Re.reach fl s (Re.Alt a b) i e <->
  Re.reach fl s a i e \/ Re.reach fl s b i e.
Proof.
  split.
  - inversion 1; subst; try discriminate; auto.
  - intros [H|H]; [now apply Re.reach_alt_l | now apply Re.reach_alt_r].
Qed.

Lemma reach_alts (ts : list (list ascii)) (i e : nat) :
  ts <> [] ->
  (Re.reach fl s (Re.alts ts) i e <-> exists t, In t ts /\ Re.spans s i e t).
Proof.
  induction ts as [|t ts IH]; [now intros H|]. intros _.
  destruct ts as [|t2 ts].
  - cbn [Re.alts]. rewrite reach_lits. split.
    + intros H. exists t. split; [now left | assumption].
    + now intros (t' & [<-|[]] & H).
  - change (Re.alts (t :: t2 :: ts))
      with (Re.Alt (Re.lits t) (Re.alts (t2 :: ts))).
    rewrite reach_alt_iff, reach_lits, IH by discriminate. split.
    + intros [H|(t' & Ht' & Hs)].
      * exists t. split; [now left | assumption].
      * exists t'. split; [now right | assumption].
    + intros (t' & [<-|Ht'] & Hs); [now left | right; now exists t'].
Qed.

Lemma run_firstn (P : ascii -> bool) (l : list ascii) (n : nat) :
  n <= Re.run P l ->
  forallb P (firstn n l) = true /\ List.length (firstn n l) = n.
Proof.
  revert n. induction l as [|c l IH]; intros [|n]; cbn [Re.run]; try (now split); try lia.
  destruct (P c) eqn:Hc; [|lia]. intros H.
  destruct (IH n) as [H1 H2]; [lia|]. cbn [firstn forallb List.length].
  now rewrite Hc, H1, H2.
Qed.

Lemma run_app (P : ascii -> bool) (w y : list ascii) :
  forallb P w = true -> List.length w <= Re.run P (w ++ y).
Proof.
  induction w as [|c w IH]; cbn [forallb app Re.run List.length]; [lia|].
  intros H. apply andb_true_iff in H as [-> H]. specialize (IH H). lia.
Qed.

Lemma reach_plus_chars (r : Re.regex) (i e : nat) :
  Re.one_char r = true ->
  (Re.reach fl s (Re.Plus r) i e <->
   exists w, w <> [] /\ forallb (Re.char_ok fl r) w = true /\
             Re.spans s i e w).
Proof.
  intros Hr. rewrite <- ends_reach, ends_plus_run, <- in_rev, in_seq by assumption.
  split.
  - intros [H1 H2].
    destruct (run_firstn (Re.char_ok fl r) (skipn i s) (e - i)) as [F L]; [lia|].
    exists (firstn (e - i) (skipn i s)). repeat split.
    + intros E. rewrite E in L. cbn in L. lia.
    + assumption.
    + rewrite <- (firstn_skipn (e - i) (skipn i s)) at 1.
      rewrite skipn_skipn. do 2 f_equal. lia.
    + lia.
  - intros (w & Hw & F & [H ->]).
    pose proof (run_app (Re.char_ok fl r) w (skipn (i + List.length w) s) F) as R.
    rewrite <- H in R. destruct w; [now elim Hw|]. cbn [List.length] in *. lia.
Qed.

Lemma reach_seq_iff (a b : Re.regex) (i e : nat) :
  Re.reach fl s (Re.Seq a b) i e <->
  exists m, Re.reach fl s a i m /\ Re.reach fl s b m e.
Proof.
  split.
  - inversion 1; subst; try discriminate. eauto.
  - intros (m & H1 & H2). now apply Re.reach_seq with m.
Qed.

Lemma reach_opt_iff (a : Re.regex) (i e : nat) :
  Re.reach fl s (Re.Opt a) i e <-> Re.reach fl s a i e \/ e = i.
Proof.
  split.
  - inversion 1; subst; try discriminate; auto.
  - intros [H| ->]; [now apply Re.reach_opt_some | apply Re.reach_opt_none].
Qed.

Lemma reach_group_iff (a : Re.regex) (i e : nat) :
  Re.reach fl s (Re.Group a) i e <-> Re.reach fl s a i e.
Proof.
  split; [inversion 1; subst; try discriminate; assumption | now constructor].
Qed.

Lemma reach_bol_iff (i e : nat) :
  Re.reach fl s Re.Bol i e <-> i = 0 /\ e = 0.
Proof.
  split; [inversion 1; subst; try discriminate; now split|].
  intros [-> ->]. constructor.
Qed.

Lemma reach_eol_iff (i e : nat) :
  Re.reach fl s Re.Eol i e <-> e = i /\ Re.at_end s i = true.
Proof.
  split; [inversion 1; subst; try discriminate; now split|].
  intros [-> H]. now constructor.
Qed.

Lemma spans_split (i e : nat) (x y : list ascii) :
  Re.spans s i e (x ++ y) ->
  Re.spans s i (i + List.length x) x /\ Re.spans s (i + List.length x) e y.
Proof.
  intros [H ->]. rewrite <- app_assoc in H. split.
  - now apply spans_intro with (y ++ skipn (i + List.length (x ++ y)) s).
  - split; [now apply skipn_after | rewrite length_app; lia].
Qed.

Lemma scope_class_ok (c : ascii) :
  Re.char_ok fl scope_class c = Spec.scope_char c.
Proof.
  unfold Spec.scope_char.
  cbn [Re.char_ok scope_class existsb Re.item_mem Re.in_category xorb].
  destruct (Re.is_word c), (Ascii.eqb c " "), (Ascii.eqb c "/"),
    (Ascii.eqb c ":"), (Ascii.eqb c "-"); reflexivity.
Qed.

Lemma forallb_scope_class (w : list ascii) :
  forallb (Re.char_ok fl scope_class) w = forallb Spec.scope_char w.
Proof.
  induction w as [|c w IH]; [reflexivity|]. cbn [forallb].
  now rewrite scope_class_ok, IH.
Qed.

Lemma reach_scope_group (i e : nat) :
  Re.reach fl s scope_group i e <->
  exists w, w <> [] /\ forallb Spec.scope_char w = true /\
            Re.spans s i e ("("%char :: w ++ [")"%char]).
Proof.
  unfold scope_group. rewrite reach_group_iff, reach_seq_iff. split.
  - intros (m1 & H1 & H2). apply reach_lit in H1.
    apply reach_seq_iff in H2 as (m2 & H2 & H3). apply reach_lit in H3.
    apply reach_plus_chars in H2 as (w & Hw & F & H2); [|reflexivity].
    exists w. split; [assumption|]. split; [now rewrite <- forallb_scope_class|].
    change ("("%char :: w ++ [")"%char]) with (["("%char] ++ w ++ [")"%char]).
    apply spans_app with m1; [assumption|]. now apply spans_app with m2.
  - intros (w & Hw & F & H).
    change ("("%char :: w ++ [")"%char]) with (["("%char] ++ w ++ [")"%char]) in H.
    apply spans_split in H as [H1 H2]. apply spans_split in H2 as [H2 H3].
    eexists. split; [apply reach_lit; exact H1|].
    apply reach_seq_iff. eexists. split; [|apply reach_lit; exact H3].
    apply reach_plus_chars; [reflexivity|]. exists w.
    split; [assumption|]. split; [now rewrite forallb_scope_class | assumption].
Qed.

Lemma forallb_any (w : list ascii) :
  Re.DOTALL fl = true -> forallb (Re.char_ok fl Re.Any) w = true.
Proof.
  intros H. induction w as [|c w IH]; [reflexivity|].
  cbn [forallb Re.char_ok]. now rewrite H, IH.
Qed.

(** With [DOTALL], the pattern of the classifier leads from the start of
    the text to some position exactly when the whole text has the
    conventional form. *)
Lemma conventional_reach (ts : list (list ascii)) (o : bool) :
  Re.DOTALL fl = true -> ts <> [] ->
  ((exists e, Re.reach fl s
                (Re.Seq Re.Bol (Re.Seq (Re.Group (Re.alts ts)) (tail_ast o)))
                0 e) <->
   exists t scope bang rest,
     In t ts /\
     ((o = true /\ scope = []) \/
      exists w, w <> [] /\ forallb Spec.scope_char w = true /\
                scope = "("%char :: w ++ [")"%char]) /\
     (bang = [] \/ bang = ["!"%char]) /\ rest <> [] /\
     s = t ++ scope ++ bang ++ ":"%char :: " "%char :: rest).
Proof.
  intros Hdot Hts. unfold tail_ast. split.
  - intros (e & H).
    apply reach_seq_iff in H as (m0 & H0 & H). apply reach_bol_iff in H0 as [_ ->].
    apply reach_seq_iff in H as (m1 & H1 & H).
    apply reach_group_iff, reach_alts in H1 as (t & Ht & H1); [|assumption].
    apply reach_seq_iff in H as (m2 & H2 & H).
    apply reach_seq_iff in H as (m3 & H3 & H).
    apply reach_seq_iff in H as (m4 & H4 & H). apply reach_lit in H4.
    apply reach_seq_iff in H as (m5 & H5 & H). apply reach_lit in H5.
    apply reach_seq_iff in H as (m6 & H6 & H).
    apply reach_eol_iff in H as [-> _].
    apply reach_plus_chars in H6 as (w & Hw & _ & H6); [|reflexivity].
    assert (S2 : exists scope,
               ((o = true /\ scope = []) \/
                exists w, w <> [] /\ forallb Spec.scope_char w = true /\
                          scope = "("%char :: w ++ [")"%char]) /\
               Re.spans s m1 m2 scope).
    { destruct o.
      - apply reach_opt_iff in H2 as [H2| ->].
        + apply reach_scope_group in H2 as (v & Hv & F & H2).
          eexists. split; [right; exists v; eauto | assumption].
        + exists []. split; [now left | now apply spans_nil].
      - apply reach_scope_group in H2 as (v & Hv & F & H2).
        eexists. split; [right; exists v; eauto | assumption]. }
    destruct S2 as (scope & Hscope & S2).
    assert (S3 : exists bang, (bang = [] \/ bang = ["!"%char]) /\
                              Re.spans s m2 m3 bang).
    { apply reach_opt_iff in H3 as [H3| ->].
      - apply reach_lit in H3. eexists. split; [now right | assumption].
      - exists []. split; [now left | now apply spans_nil]. }
    destruct S3 as (bang & Hbang & S3).
    exists t, scope, bang, (w ++ skipn m6 s).
    split; [assumption|]. split; [assumption|]. split; [assumption|].
    split; [destruct w; [now elim Hw | discriminate]|].
    pose proof (spans_app _ _ _ _ _ H1
                 (spans_app _ _ _ _ _ S2
                   (spans_app _ _ _ _ _ S3
                     (spans_app _ _ _ _ _ H4
                       (spans_app _ _ _ _ _ H5 H6))))) as [E _].
    change (skipn 0 s) with s in E. rewrite <- !app_assoc in E. exact E.
  - intros (t & scope & bang & rest & Ht & Hscope & Hbang & Hrest & E).
    assert (E0 : skipn 0 s = t ++ scope ++ bang ++ ":"%char :: " "%char :: rest)
      by exact E.
    pose proof (spans_intro _ _ _ E0) as S1. apply skipn_after in E0.
    cbn [Nat.add] in *. remember (List.length t) as m1.
    pose proof (spans_intro _ _ _ E0) as S2. apply skipn_after in E0.
    remember (m1 + List.length scope) as m2.
    pose proof (spans_intro _ _ _ E0) as S3. apply skipn_after in E0.
    remember (m2 + List.length bang) as m3.
    rewrite <- (app_nil_r rest) in E0.
    change (":"%char :: " "%char :: rest ++ [])
      with ([":"%char] ++ [" "%char] ++ rest ++ []) in E0.
    pose proof (spans_intro _ _ _ E0) as S4. apply skipn_after in E0.
    remember (m3 + List.length [":"%char]) as m4.
    pose proof (spans_intro _ _ _ E0) as S5. apply skipn_after in E0.
    remember (m4 + List.length [" "%char]) as m5.
    pose proof (spans_intro _ _ _ E0) as S6. apply skipn_after in E0.
    remember (m5 + List.length rest) as m6.
    assert (L : m6 = List.length s).
    { rewrite E, !length_app. cbn [List.length] in *. lia. }
    exists m6. apply reach_seq_iff. exists 0. split; [now apply reach_bol_iff|].
    apply reach_seq_iff. exists m1. split.
    { apply reach_group_iff, reach_alts; [assumption|]. now exists t. }
    apply reach_seq_iff. exists m2. split.
    { destruct Hscope as [[-> ->]|(w & Hw & F & ->)].
      - apply reach_opt_iff. right. apply spans_nil in S2. assumption.
      - assert (G : Re.reach fl s scope_group m1 m2)
          by (apply reach_scope_group; exists w; auto).
        destruct o; [apply reach_opt_iff; now left | assumption]. }
    apply reach_seq_iff. exists m3. split.
    { apply reach_opt_iff. destruct Hbang as [-> | ->].
      - right. now apply spans_nil in S3.
      - left. now apply reach_lit. }
    apply reach_seq_iff. exists m4. split; [now apply reach_lit|].
    apply reach_seq_iff. exists m5. split; [now apply reach_lit|].
    apply reach_seq_iff. exists m6. split.
    { apply reach_plus_chars; [reflexivity|]. exists rest.
      split; [assumption|]. split; [now apply forallb_any | exact S6]. }
    apply reach_eol_iff. split; [reflexivity|].
    unfold Re.at_end. now rewrite L, Nat.eqb_refl.
Qed.

End Spans.

(** ** Parsing a pattern of ordinary types *)

Section Parsing.

Local Open Scope list_scope.
Local Open Scope nat_scope.

Lemma ordinary_spec (c : ascii) :
  Re.ordinary c = true ->
  Ascii.eqb c "." = false /\ Ascii.eqb c "\" = false /\
  Ascii.eqb c "[" = false /\ Ascii.eqb c "{" = false /\
  Ascii.eqb c "(" = false /\ Ascii.eqb c ")" = false /\
  Ascii.eqb c "*" = false /\ Ascii.eqb c "+" = false /\
  Ascii.eqb c "?" = false /\ Ascii.eqb c "^" = false /\
  Ascii.eqb c "$" = false /\ Ascii.eqb c "|" = false.
Proof.
  unfold Re.ordinary. rewrite negb_true_iff. cbn [list_ascii_of_string existsb].
  intros H. repeat (apply orb_false_iff in H; destruct H as [? H]).
  repeat split; assumption.
Qed.

Ltac use_ordinary H :=
  apply ordinary_spec in H;
  destruct H as (?&?&?&?&?&?&?&?&?&?&?&?).

Lemma not_quantifier_head (w k : list ascii) :
  forallb Re.ordinary w = true -> Re.stops k = true ->
  match w ++ k with
  | q :: _ => Re.is_quantifier q = false
  | [] => True
  end.
Proof.
  destruct w as [|c w]; cbn [app forallb].
  - destruct k as [|c k]; [trivial|]. cbn [Re.stops]. unfold Re.is_quantifier.
    intros _ H. apply orb_true_iff in H as [H|H]; apply Ascii.eqb_eq in H;
      subst; reflexivity.
  - intros H _. apply andb_true_iff in H as [H _]. use_ordinary H.
    unfold Re.is_quantifier. now repeat match goal with
                                 | E : _ = false |- _ => rewrite E; clear E
                                 end.
Qed.

Lemma parse_suffix_plain (a : Re.regex) (rest : list ascii) :
  match rest with
  | q :: _ => Re.is_quantifier q = false
  | [] => True
  end ->
  Re.parse_suffix a true rest = Some (a, rest).
Proof.
  destruct rest as [|q rest]; [reflexivity|]. cbn [Re.parse_suffix].
  now intros ->.
Qed.

Lemma parse_atom_ordinary (c : ascii) (rest : list ascii) (fuel : nat) :
  Re.ordinary c = true ->
  Re.parse_atom (S fuel) (c :: rest) = Some (Re.Lit c, true, rest).
Proof.
  intros Hc. use_ordinary Hc. cbn [Re.parse_atom]. unfold Re.is_quantifier.
  repeat match goal with
         | E : Ascii.eqb c _ = false |- _ => rewrite E; clear E
         end.
  reflexivity.
Qed.

Lemma parse_seq_step (c : ascii) (rest : list ascii) (fuel : nat) :
  Ascii.eqb c "|" = false -> Ascii.eqb c ")" = false ->
  Re.parse_seq (S fuel) (c :: rest) =
  match Re.parse_atom fuel (c :: rest) with
  | Some (a, repeatable, rest1) =>
      match Re.parse_suffix a repeatable rest1 with
      | Some (piece, rest') =>
          match Re.parse_seq fuel rest' with
          | Some (tail, rest'') => Some (Re.seq piece tail, rest'')
          | None => None
          end
      | None => None
      end
  | None => None
  end.
Proof.
  intros H1 H2. cbn [Re.parse_seq]. now rewrite H1, H2.
Qed.

Lemma parse_alt_step (l : list ascii) (fuel : nat) :
  Re.parse_alt (S fuel) l =
  match Re.parse_seq fuel l with
  | Some (r1, c :: rest) =>
      if Ascii.eqb c "|" then
        match Re.parse_alt fuel rest with
        | Some (r2, rest') => Some (Re.Alt r1 r2, rest')
        | None => None
        end
      else Some (r1, c :: rest)
  | other => other
  end.
Proof. reflexivity. Qed.

Lemma parse_seq_lits (w k : list ascii) (fuel : nat) :
  forallb Re.ordinary w = true -> Re.stops k = true ->
  List.length w < fuel ->
  Re.parse_seq fuel (w ++ k) = Some (Re.lits w, k).
Proof.
  intros Hw Hk. revert fuel. induction w as [|c w IH]; intros fuel Hf.
  - destruct fuel as [|fuel]; [cbn in Hf; lia|]. cbn [app Re.parse_seq Re.lits].
    destruct k as [|c k]; [reflexivity|]. cbn [Re.stops] in Hk. now rewrite Hk.
  - cbn [List.length] in Hf.
    destruct fuel as [|fuel]; [lia|].
    cbn [forallb] in Hw. apply andb_true_iff in Hw as [Hc Hw].
    pose proof (not_quantifier_head w k Hw Hk) as Hq.
    pose proof Hc as Hc'. use_ordinary Hc'.
    cbn [app]. rewrite parse_seq_step by assumption.
    destruct fuel as [|fuel]; [lia|].
    rewrite parse_atom_ordinary by assumption.
    rewrite parse_suffix_plain by assumption.
    rewrite IH by (assumption || lia). reflexivity.
Qed.

Lemma parse_alt_alts (ts : list (list ascii)) (k : list ascii) (fuel : nat) :
  forallb (forallb Re.ordinary) ts = true ->
  S (List.length (Re.bars ts)) < fuel ->
  Re.parse_alt fuel (Re.bars ts ++ ")"%char :: k)
  = Some (Re.alts ts, ")"%char :: k).
Proof.
  intros Hts. revert fuel. induction ts as [|t ts IH]; intros fuel Hf.
  - destruct fuel as [|[|fuel]]; [cbn in Hf; lia | cbn in Hf; lia |]. reflexivity.
  - cbn [forallb] in Hts. apply andb_true_iff in Hts as [Ht Hts].
    destruct fuel as [|fuel]; [lia|].
    destruct ts as [|t2 ts].
    + cbn [Re.bars Re.alts Re.parse_alt] in *.
      rewrite parse_seq_lits by (assumption || reflexivity || lia).
      reflexivity.
    + remember (t2 :: ts) as ts' eqn:Ets.
      assert (B : Re.bars (t :: ts') = t ++ "|"%char :: Re.bars ts')
        by (subst ts'; reflexivity).
      assert (A : Re.alts (t :: ts') = Re.Alt (Re.lits t) (Re.alts ts'))
        by (subst ts'; reflexivity).
      rewrite B, A in *. rewrite length_app in Hf. cbn [List.length] in Hf.
      rewrite <- app_assoc. cbn [app Re.parse_alt].
      rewrite parse_seq_lits by (assumption || reflexivity || lia).
      cbn [Ascii.eqb Bool.eqb andb]. rewrite IH by (assumption || lia).
      reflexivity.
Qed.

Lemma bars_head (ts : list (list ascii)) (k : list ascii) :
  forallb (forallb Re.ordinary) ts = true ->
  exists q rest, Re.bars ts ++ ")"%char :: k = q :: rest /\
                 Ascii.eqb q "?" = false.
Proof.
  destruct ts as [|[|c t] ts]; cbn [forallb Re.bars app].
  - now eexists _, _.
  - destruct ts; cbn [app]; now eexists _, _.
  - intros H. apply andb_true_iff in H as [H _].
    apply andb_true_iff in H as [H _]. use_ordinary H.
    destruct ts; cbn [app]; now eexists _, _.
Qed.

Lemma parse_atom_group (q : ascii) (rest : list ascii) (fuel : nat) :
  Ascii.eqb q "?" = false ->
  Re.parse_atom (S fuel) ("("%char :: q :: rest) =
  match Re.expect_close (Re.parse_alt fuel (q :: rest)) with
  | Some (r, rest') => Some (Re.Group r, true, rest')
  | None => None
  end.
Proof.
  intros H. cbn [Re.parse_atom Ascii.eqb Bool.eqb andb]. now rewrite H.
Qed.

Lemma list_ascii_app (a b : string) :
  list_ascii_of_string (a ++ b)%string =
  list_ascii_of_string a ++ list_ascii_of_string b.
Proof.
  induction a as [|c a IH]; [reflexivity|]. simpl. now rewrite IH.
Qed.

Lemma bars_join (T : list string) :
  list_ascii_of_string (Str.join "|" T) =
  Re.bars (map list_ascii_of_string T).
Proof.
  unfold Str.join. induction T as [|t T IH]; [reflexivity|].
  destruct T as [|t2 T]; [reflexivity|].
  change (String.concat "|" (t :: t2 :: T))
    with (t ++ "|" ++ String.concat "|" (t2 :: T))%string.
  rewrite !list_ascii_app, IH. reflexivity.
Qed.

Lemma parse_tail (o : bool) (m : nat) :
  Re.parse_seq (40 + m)
    (list_ascii_of_string (r_scope o ++ r_delim ++ r_subject ++ "$")%string)
  = Some (tail_ast o, []).
Proof.
  destruct o; vm_compute; reflexivity.
Qed.

(** The pattern of [is_conventional] over ordinary types parses to the
    expected tree. *)
Lemma compile_conventional (T : list string) (o : bool) (fl : Re.flags) :
  forallb Spec.plain T = true ->
  Re.compile ("^(" ++ r_types T ++ ")" ++ r_scope o ++ r_delim ++ r_subject
              ++ "$")%string fl
  = Some {| Re.ast := conventional_ast T o; Re.flag := fl |}.
Proof.
  intros HT. unfold Re.compile, r_types.
  assert (HT' : forallb (forallb Re.ordinary) (map list_ascii_of_string T)
                = true).
  { rewrite forallb_forall in *. intros x Hx.
    apply in_map_iff in Hx as (t & <- & Ht). now apply HT. }
  change ("^(" ++ Str.join "|" T ++ ")" ++ r_scope o ++ r_delim ++ r_subject
          ++ "$")%string
    with (String "^" (String "(" (Str.join "|" T ++
            String ")" (r_scope o ++ r_delim ++ r_subject ++ "$"))))%string.
  cbn [list_ascii_of_string]. rewrite list_ascii_app, bars_join.
  cbn [list_ascii_of_string].
  remember (list_ascii_of_string
              (r_scope o ++ r_delim ++ r_subject ++ "$")%string) as tl eqn:Etl.
  assert (Ltl : 20 <= List.length tl) by (subst tl; destruct o; vm_compute; lia).
  remember (Re.bars (map list_ascii_of_string T)) as bs eqn:Ebs.
  cbn [List.length]. rewrite length_app. cbn [List.length].
  remember (4 * S (S (List.length bs + S (List.length tl))) + 4) as F eqn:EF.
  destruct F as [|[|[|[|F]]]]; try lia.
  rewrite parse_alt_step, parse_seq_step by reflexivity.
  change (Re.parse_atom (S (S F)) ("^"%char :: "("%char :: bs ++ ")"%char :: tl))
    with (Some (Re.Bol, false, "("%char :: bs ++ ")"%char :: tl)).
  cbv beta iota.
  change (Re.parse_suffix Re.Bol false ("("%char :: bs ++ ")"%char :: tl))
    with (Some (Re.Bol, "("%char :: bs ++ ")"%char :: tl)).
  cbv beta iota.
  rewrite parse_seq_step by reflexivity.
  destruct (bars_head (map list_ascii_of_string T) tl HT') as (q & rest & EX & Hq).
  rewrite <- Ebs in EX. rewrite EX, parse_atom_group by assumption.
  rewrite <- EX. subst bs. rewrite parse_alt_alts by (assumption || lia).
  cbn [Re.expect_close Ascii.eqb Bool.eqb andb].
  rewrite parse_suffix_plain by (subst tl; destruct o; reflexivity).
  replace (S F) with (40 + (S F - 40)) by lia.
  rewrite Etl, parse_tail. reflexivity.
Qed.

End Parsing.

(** ** The classifier on ordinary types *)

Section Classifier.

Local Open Scope list_scope.

Lemma string_of_list_app (a b : list ascii) :
  string_of_list_ascii (a ++ b) =
  (string_of_list_ascii a ++ string_of_list_ascii b)%string.
Proof.
  induction a as [|c a IH]; [reflexivity|]. simpl. now rewrite IH.
Qed.

Lemma conventional_types_plain (T : list string) :
  forallb Spec.plain T = true ->
  forallb Spec.plain (conventional_types T) = true.
Proof.
  intros H. unfold conventional_types.
  destruct (set_inter string_dec T CONVENTIONAL_TYPES); [|assumption].
  cbn [CONVENTIONAL_TYPES app forallb]. now rewrite H.
Qed.

Lemma conventional_types_nonempty (T : list string) :
  conventional_types T <> [].
Proof.
  unfold conventional_types.
  destruct (set_inter string_dec T CONVENTIONAL_TYPES) eqn:E; [discriminate|].
  intros ->. discriminate.
Qed.

Lemma hd_error_some (l : list nat) :
  (match hd_error l with Some _ => true | None => false end) = true <->
  exists e, In e l.
Proof.
  destruct l as [|a l]; cbn.
  - split; [discriminate | now intros [e []]].
  - split; [exists a; now left | reflexivity].
Qed.

(** The conventional form, read on lists of characters. *)
Lemma conforms_lists (types : list string) (o : bool) (s : string) :
  Spec.conforms types o s <->
  exists t scope bang rest,
    In t (map list_ascii_of_string types) /\
    ((o = true /\ scope = []) \/
     exists w, w <> [] /\ forallb Spec.scope_char w = true /\
               scope = "("%char :: w ++ [")"%char]) /\
    (bang = [] \/ bang = ["!"%char]) /\ rest <> [] /\
    list_ascii_of_string s = t ++ scope ++ bang ++ ":"%char :: " "%char :: rest.
Proof.
  unfold Spec.conforms, Spec.is_scope. split.
  - intros (t & scope & bang & rest & Ht & Hs & Hb & Hr & ->).
    exists (list_ascii_of_string t), (list_ascii_of_string scope),
      (list_ascii_of_string bang), (list_ascii_of_string rest).
    split; [now apply in_map|]. split; [|split; [|split]].
    + destruct Hs as [[-> ->]|(w & Hw & F & ->)]; [now left | right].
      exists (list_ascii_of_string w). split; [|split; [assumption|]].
      * destruct w; [now elim Hw | discriminate].
      * cbn [append list_ascii_of_string]. now rewrite list_ascii_app.
    + destruct Hb as [-> | ->]; [now left | now right].
    + destruct rest; [now elim Hr | discriminate].
    + now rewrite !list_ascii_app.
  - intros (t & scope & bang & rest & Ht & Hs & Hb & Hr & E).
    apply in_map_iff in Ht as (t0 & <- & Ht0).
    exists t0, (string_of_list_ascii scope), (string_of_list_ascii bang),
      (string_of_list_ascii rest).
    split; [assumption|]. split; [|split; [|split]].
    + destruct Hs as [[-> ->]|(w & Hw & F & ->)]; [now left | right].
      exists (string_of_list_ascii w). split; [|split].
      * destruct w; [now elim Hw | discriminate].
      * now rewrite list_ascii_of_string_of_list_ascii.
      * cbn [string_of_list_ascii]. now rewrite string_of_list_app.
    + destruct Hb as [-> | ->]; [now left | now right].
    + destruct rest; [now elim Hr | discriminate].
    + rewrite <- (string_of_list_ascii_of_string s), E.
      rewrite !string_of_list_app. cbn [string_of_list_ascii].
      now rewrite string_of_list_ascii_of_string.
Qed.

(** For types that are ordinary text the classifier always answers, and
    it says yes exactly for the messages that are no special commit and
    have, as a whole, the conventional form over the effective types. *)
Lemma is_conventional_plain (s : string) (T : list string) (o : bool) :
  forallb Spec.plain T = true ->
  exists b, is_conventional s T o = ret b /\
            (b = true <->
             is_special_commit s = false /\
             Spec.conforms (conventional_types T) o s).
Proof.
  intros HT. unfold is_conventional.
  destruct (is_special_commit s).
  { exists false. split; [reflexivity|].
    split; [discriminate | intros [H _]; discriminate]. }
  unfold is_conventional_pattern, re_compile. cbv zeta.
  rewrite compile_conventional by now apply conventional_types_plain.
  cbn [bind ret app]. eexists. split; [reflexivity|].
  unfold Re.match_. cbn [Re.ast Re.flag].
  rewrite hd_error_some, conforms_lists.
  rewrite <- (conventional_reach {| Re.DOTALL := true |}
                (list_ascii_of_string s)
                (map list_ascii_of_string (conventional_types T)) o).
  - split.
    + intros (e & He). split; [reflexivity|]. exists e. now apply ends_reach.
    + intros [_ (e & He)]. exists e. now apply ends_reach.
  - reflexivity.
  - intros E. apply map_eq_nil in E. now apply conventional_types_nonempty in E.
Qed.

End Classifier.

(** [findall] with a label pattern finds the tokens the specification
    names, provided the label ends in whitespace. *)
Lemma findall_label (label : string) (pre : list ascii) (sp : ascii) :
  list_ascii_of_string label = (pre ++ [sp])%list ->
  Re.is_space sp = true ->
  forall text, Re.findall (label_pattern label) text = Spec.labelled label text.
Proof.
  intros Hl Hsp text. unfold Re.findall, Spec.labelled, label_pattern.
  cbv zeta. rewrite Hl.
  rewrite (scan_label no_flags (list_ascii_of_string text) pre sp _ 0 Hsp)
    by lia.
  now rewrite Nat.sub_0_r.
Qed.

Lemma status_matches_spec (input : string) :
  status_matches input = ret (Spec.touched_by_labels input).
Proof.
  unfold status_matches.
  change (re_compile "(?<=modified:   )\S+" no_flags)
    with (ret (label_pattern "modified:   ")).
  change (re_compile "(?<=new file:   )\S+" no_flags)
    with (ret (label_pattern "new file:   ")).
  change (re_compile "(?<=deleted:    )\S+" no_flags)
    with (ret (label_pattern "deleted:    ")).
  change (re_compile "(?<=renamed:    )\S+" no_flags)
    with (ret (label_pattern "renamed:    ")).
  cbn [bind ret app flat_map]. unfold Spec.touched_by_labels.
  rewrite (findall_label "modified:   " (list_ascii_of_string "modified:  ")
             " "%char) by reflexivity.
  rewrite (findall_label "new file:   " (list_ascii_of_string "new file:  ")
             " "%char) by reflexivity.
  rewrite (findall_label "deleted:    " (list_ascii_of_string "deleted:   ")
             " "%char) by reflexivity.
  rewrite (findall_label "renamed:    " (list_ascii_of_string "renamed:   ")
             " "%char) by reflexivity.
  now rewrite !map_app, app_nil_r.
Qed.

(** ** Touched paths *)

(** C6.  When the message carries status labels, the touched paths are
    the tokens that follow "modified:   ", then those after
    "new file:   ", then "deleted:    ", then "renamed:    "; a token is
    the longest run of characters that are not whitespace right after the
    label, and within a label the tokens keep the order of the text.
    Nothing is run or printed. *)
Theorem labelled_paths_in_category_order (git : run_result) (input : string) :
  Spec.touched_by_labels input <> [] ->
  get_modified_filepaths git input = ret (Spec.touched_by_labels input).
Proof.
  intros H. unfold get_modified_filepaths. rewrite status_matches_spec.
  cbn [bind ret]. destruct (Spec.touched_by_labels input); [now elim H|].
  reflexivity.
Qed.

Lemma labelled_paths_in_category_order_witness :
  Spec.touched_by_labels ("modified:   a" ++ nl ++ "new file:   b" ++ nl)
    <> [] /\
  get_modified_filepaths RunFailure
    ("modified:   a" ++ nl ++ "new file:   b" ++ nl)
    = ret [Path.parse "a"; Path.parse "b"] /\
  get_modified_filepaths (Completed "c")
    ("modified:   a" ++ nl ++ "new file:   b" ++ nl)
    = ret [Path.parse "a"; Path.parse "b"].
Proof.
  split; [discriminate|]. split.
  - apply (labelled_paths_in_category_order RunFailure
             ("modified:   a" ++ nl ++ "new file:   b" ++ nl)).
    discriminate.
  - apply (labelled_paths_in_category_order (Completed "c")
             ("modified:   a" ++ nl ++ "new file:   b" ++ nl)).
    discriminate.
Defined.

(** C7.  [git diff] is run exactly when the message names no path after
    any of the four labels, and then once; its output gives one path per
    line, in its order; when it exits with a non-zero status the failure
    is printed and the result is the empty list, no exception. *)
Theorem fallback_query (git : run_result) (input : string) :
  get_modified_filepaths git input =
    match Spec.touched_by_labels input with
    | _ :: _ => ret (Spec.touched_by_labels input)
    | [] =>
        match git with
        | Completed out =>
            (Return (map Path.parse (Str.splitlines out)),
             [Ran git_diff_argv])
        | CalledProcessError e =>
            (Return [],
             [Ran git_diff_argv;
              Printed ("Failed to get modified files. Error: " ++ e)])
        | RunFailure => (Raise RunError, [Ran git_diff_argv])
        end
    end /\
  (queries (snd (get_modified_filepaths git input)) = 1 <->
   Spec.touched_by_labels input = []) /\
  queries (snd (get_modified_filepaths git input)) <= 1.
Proof.
  unfold get_modified_filepaths. rewrite status_matches_spec.
  cbn [bind ret].
  destruct (Spec.touched_by_labels input) as [|p l].
  - destruct git; cbn; repeat split; auto.
  - cbn. repeat split; try discriminate; auto.
Qed.

(** ** Paths *)

Section Paths.

Local Open Scope list_scope.

Lemma path_eqb_eq (p q : Path.t) : Path.eqb p q = true <-> p = q.
Proof.
  unfold Path.eqb. destruct p as [rp pp], q as [rq pq]. cbn [Path.root Path.parts].
  rewrite andb_true_iff, String.eqb_eq.
  destruct (list_eq_dec string_dec pp pq) as [E|E]; split.
  - intros [-> _]. now rewrite E.
  - intros H. injection H as -> _. now split.
  - intros [_ H]. discriminate.
  - intros H. injection H as _ H. now elim E.
Qed.

Lemma prefixes_iff (l x : list string) :
  In x (Path.prefixes l) <-> exists rest, rest <> [] /\ l = x ++ rest.
Proof.
  revert x. induction l as [|a l IH]; intros x; cbn [Path.prefixes].
  - split; [intros []|]. intros (rest & Hr & H).
    symmetry in H. apply app_eq_nil in H as [_ H]. now elim Hr.
  - cbn [In]. rewrite in_map_iff. split.
    + intros [<-|(y & <- & Hy)].
      * exists (a :: l). split; [discriminate | reflexivity].
      * apply IH in Hy as (rest & Hr & ->). now exists rest.
    + intros (rest & Hr & H). destruct x as [|b x]; [now left|right].
      injection H as <- H. exists x. split; [reflexivity|].
      apply IH. now exists rest.
Qed.

Lemma is_parent_iff (q p : Path.t) :
  Path.is_parent q p = true <-> Spec.proper_ancestor q p.
Proof.
  unfold Path.is_parent, Path.parents, Spec.proper_ancestor.
  rewrite existsb_exists. split.
  - intros (x & Hx & E). apply path_eqb_eq in E as <-.
    apply in_map_iff in Hx as (ps & <- & Hps). cbn [Path.root Path.parts].
    split; [reflexivity|]. apply prefixes_iff. now apply in_rev.
  - intros (Hroot & Hrest). exists q. split; [|now apply path_eqb_eq].
    apply in_map_iff. exists (Path.parts q). split.
    + rewrite <- Hroot. now destruct q.
    + apply in_rev. rewrite rev_involutive. now apply prefixes_iff.
Qed.

Lemma under_limit_iff (limited : list string) (p : Path.t) :
  under_limit limited p = true <->
  exists q, In q (map Path.parse limited) /\ Spec.falls_under p q.
Proof.
  unfold under_limit, Spec.falls_under. rewrite existsb_exists. split.
  - intros (x & Hx & H). exists (Path.parse x). split; [now apply in_map|].
    apply orb_true_iff in H as [H|H].
    + right. now apply is_parent_iff.
    + left. now apply path_eqb_eq.
  - intros (q & Hq & H). apply in_map_iff in Hq as (x & <- & Hx).
    exists x. split; [assumption|]. apply orb_true_iff.
    destruct H as [H|H].
    + right. now apply path_eqb_eq.
    + left. now apply is_parent_iff.
Qed.

Lemma filter_nil_iff {A : Type} (f : A -> bool) (l : list A) :
  filter f l = [] <-> forall x, In x l -> f x = false.
Proof.
  induction l as [|a l IH]; cbn [filter].
  - split; [intros _ x [] | reflexivity].
  - destruct (f a) eqn:Ha; split.
    + discriminate.
    + intros H. specialize (H a (or_introl eq_refl)). congruence.
    + intros H x [<-|Hx]; [assumption|]. now apply IH.
    + intros H. apply IH. intros x Hx. apply H. now right.
Qed.

End Paths.

(** ** Entry point *)

(** C8.  With a path filter configured, [main] returns 0 straight after
    the touched paths are known, whatever the message, the types and the
    scope policy, when no touched path equals a filter path or has one as
    a proper ancestor; when some touched path does, the message is
    classified and reported as it is without a filter.  The filter paths
    are the comma-separated parts of the first [--limit-to] value. *)
Theorem limit_to_scope (args : Namespace) (message : string)
  (git : run_result) (first : string) (rest : list string)
  (touched : list Path.t) (log : list event) :
  limit_to args = Some (first :: rest) ->
  get_modified_filepaths git message = (Return touched, log) ->
  ((forall p q, In p touched -> In q (map Path.parse (Str.split "," first)) ->
                ~ Spec.falls_under p q) ->
   main (Some args) (ReadOk message) git = (Return RESULT_SUCCESS, log)) /\
  ((exists p q, In p touched /\ In q (map Path.parse (Str.split "," first)) /\
                Spec.falls_under p q) ->
   main (Some args) (ReadOk message) git =
   let (r, l) := check_message message (types args) (optional_scope args) in
   (r, (log ++ l)%list)).
Proof.
  intros Hlimit Hget. unfold main, limit_check. rewrite Hlimit, Hget.
  cbn [bind ret limited_paths_of]. split.
  - intros Hnone.
    assert (E : filter (under_limit (Str.split "," first)) touched = []).
    { apply filter_nil_iff. intros p Hp.
      destruct (under_limit (Str.split "," first) p) eqn:Hu; [|reflexivity].
      apply under_limit_iff in Hu as (q & Hq & Hu). now elim (Hnone p q). }
    rewrite E. cbn. now rewrite !app_nil_r.
  - intros (p & q & Hp & Hq & Hu).
    destruct (filter (under_limit (Str.split "," first)) touched) eqn:E.
    + exfalso. rewrite filter_nil_iff in E.
      assert (U : under_limit (Str.split "," first) p = true).
      { apply under_limit_iff. now exists q. }
      rewrite (E p Hp) in U. discriminate.
    + cbn [app]. rewrite app_nil_r.
      destruct (check_message message (types args) (optional_scope args)).
      reflexivity.
Qed.

Lemma limit_to_scope_witness :
  limit_to (example_args ["/path/to/dir"]) = Some ["/path/to/dir"] /\
  (* a touched path outside the filter: accepted unseen *)
  get_modified_filepaths (Completed "/different/path/file.txt")
    "bad commit message"
  = (Return [Path.parse "/different/path/file.txt"], [Ran git_diff_argv]) /\
  main (Some (example_args ["/path/to/dir"])) (ReadOk "bad commit message")
       (Completed "/different/path/file.txt")
  = (Return RESULT_SUCCESS, [Ran git_diff_argv]) /\
  (* a touched path under the filter: classified *)
  get_modified_filepaths (Completed "/path/to/dir/file.txt")
    "bad commit message"
  = (Return [Path.parse "/path/to/dir/file.txt"], [Ran git_diff_argv]) /\
  main (Some (example_args ["/path/to/dir"])) (ReadOk "bad commit message")
       (Completed "/path/to/dir/file.txt")
  = (Return RESULT_FAIL,
     [Ran git_diff_argv;
      Printed (bad_message_text "bad commit message" ["feat"; "fix"])]).
Proof.
  split; [reflexivity|]. split; [reflexivity|]. split; [|split; [reflexivity|]].
  - apply (limit_to_scope (example_args ["/path/to/dir"])
             "bad commit message" (Completed "/different/path/file.txt")
             "/path/to/dir" [] [Path.parse "/different/path/file.txt"]
             [Ran git_diff_argv]); [reflexivity | reflexivity |].
    intros p q Hp Hq Hu.
    assert (U : under_limit ["/path/to/dir"] p = true).
    { apply under_limit_iff. now exists q. }
    destruct Hp as [<-|[]]. vm_compute in U. discriminate.
  - apply (limit_to_scope (example_args ["/path/to/dir"])
             "bad commit message" (Completed "/path/to/dir/file.txt")
             "/path/to/dir" [] [Path.parse "/path/to/dir/file.txt"]
             [Ran git_diff_argv]); [reflexivity | reflexivity |].
    exists (Path.parse "/path/to/dir/file.txt"), (Path.parse "/path/to/dir").
    split; [now left|]. split; [now left|]. right. split; [reflexivity|].
    exists ["file.txt"]. split; [discriminate | reflexivity].
Defined.

(** C9.  Of the values given to [--limit-to], [main] looks at the first
    only and splits it at its commas; the values after the first change
    nothing, even one that names the directory of a touched path. *)
Theorem limit_to_first_token (ty : list string) (o : bool) (inp : string)
  (first : string) (rest : list string) (file : read_result)
  (git : run_result) :
  main (Some {| types := ty; limit_to := Some (first :: rest);
                optional_scope := o; input := inp |}) file git =
  main (Some {| types := ty; limit_to := Some [first];
                optional_scope := o; input := inp |}) file git /\
  limited_paths_of (first :: rest) = Str.split "," first /\
  limited_paths_of ["/a,/b"; "/c"] = ["/a"; "/b"] /\
  main (Some (example_args ["/other"; "/path/to/dir"]))
       (ReadOk "bad commit message") (Completed "/path/to/dir/file.txt")
  = (Return RESULT_SUCCESS, [Ran git_diff_argv]).
Proof.
  repeat split.
Qed.

(** ** The pattern of the classifier *)

(** C2.  The pattern [is_conventional] builds is "^(", the effective types
    (the caller's, with "feat" and "fix" in front when it holds neither)
    joined by "|", ")", the scope group, "?" after it exactly when the
    scope is optional, "!?:", a space, ".+" and "$".  It is compiled with
    DOTALL, under which "." accepts every character, and matched from the
    start of the message.  When the types are ordinary text the match
    covers the whole message: the answer is yes exactly for a message that
    is no special commit and is a type, a scope, an optional "!", ": " and
    a text that is not empty and may span lines. *)
Theorem is_conventional_pattern_shape (T : list string) (o : bool) :
  is_conventional_pattern T o =
    "^(" ++ Str.join "|" (conventional_types T) ++ ")"
    ++ "(\([\w \/:-]+\))" ++ (if o then "?" else "")
    ++ "!?:" ++ " " ++ ".+" ++ "$" /\
  r_types ["feat"; "fix"] = "feat|fix" /\
  r_scope true = r_scope false ++ "?" /\
  (forall s, is_special_commit s = false ->
     is_conventional s T o =
     (regex <- re_compile (is_conventional_pattern T o)
                          {| Re.DOTALL := true |} ;;
      ret (match Re.match_ regex s with Some _ => true | None => false end)))
  /\
  (forall c, Re.char_ok {| Re.DOTALL := true |} Re.Any c = true) /\
  (forallb Spec.plain T = true ->
   forall s, exists b,
     is_conventional s T o = ret b /\
     (b = true <->
      is_special_commit s = false /\
      Spec.conforms (conventional_types T) o s)).
Proof.
  split; [destruct o; reflexivity|].
  split; [reflexivity|]. split; [reflexivity|]. split; [|split].
  - intros s H. unfold is_conventional. now rewrite H.
  - reflexivity.
  - intros HT s. now apply is_conventional_plain.
Qed.

Lemma is_conventional_pattern_shape_witness :
  forallb Spec.plain DEFAULT_TYPES = true /\
  exists b,
    is_conventional ("fix(scope)!: subject" ++ nl ++ "body") DEFAULT_TYPES
                    false = ret b /\
    (b = true <->
     is_special_commit ("fix(scope)!: subject" ++ nl ++ "body") = false /\
     Spec.conforms (conventional_types DEFAULT_TYPES) false
                   ("fix(scope)!: subject" ++ nl ++ "body")).
Proof.
  split; [reflexivity|].
  apply (is_conventional_pattern_shape DEFAULT_TYPES false); reflexivity.
Defined.

(** * Further properties of the hook *)

(** ** The effective types *)

Section EffectiveTypes.

Local Open Scope list_scope.

Lemma no_mandatory_type (T : list string) :
  set_inter string_dec T CONVENTIONAL_TYPES = [] <->
  ~ In "feat"%string T /\ ~ In "fix"%string T.
Proof.
  split.
  - intros E. split; intros H.
    + assert (I : In "feat"%string
                     (set_inter string_dec T CONVENTIONAL_TYPES))
        by (apply set_inter_intro; [assumption | now left]).
      rewrite E in I. destruct I.
    + assert (I : In "fix"%string
                     (set_inter string_dec T CONVENTIONAL_TYPES))
        by (apply set_inter_intro; [assumption | right; now left]).
      rewrite E in I. destruct I.
  - intros [Hfeat Hfix].
    destruct (set_inter string_dec T CONVENTIONAL_TYPES) as [|a l] eqn:E;
      [reflexivity|].
    assert (I : In a (set_inter string_dec T CONVENTIONAL_TYPES))
      by (rewrite E; now left).
    apply set_inter_elim in I as [IT [<-|[<-|[]]]]; contradiction.
Qed.

Lemma conventional_types_keep (T : list string) :
  In "feat"%string T \/ In "fix"%string T -> conventional_types T = T.
Proof.
  intros H. unfold conventional_types.
  destruct (set_inter string_dec T CONVENTIONAL_TYPES) as [|a l] eqn:E;
    [|reflexivity].
  apply no_mandatory_type in E as [Hfeat Hfix]. destruct H; contradiction.
Qed.

Lemma conventional_types_add (T : list string) :
  ~ In "feat"%string T -> ~ In "fix"%string T ->
  conventional_types T = "feat"%string :: "fix"%string :: T.
Proof.
  intros Hfeat Hfix. unfold conventional_types.
  replace (set_inter string_dec T CONVENTIONAL_TYPES) with (@nil string);
    [reflexivity|].
  symmetry. apply no_mandatory_type. now split.
Qed.

(** X1.  [conventional_types] gives back the caller's list untouched as
    soon as it holds "feat" or "fix", and otherwise puts "feat" and "fix",
    in this order, in front of it; either way no type of the caller is
    lost. *)
Theorem conventional_types_cases (T : list string) :
  (In "feat"%string T \/ In "fix"%string T -> conventional_types T = T) /\
  (~ In "feat"%string T -> ~ In "fix"%string T ->
   conventional_types T = "feat"%string :: "fix"%string :: T) /\
  incl T (conventional_types T).
Proof.
  split; [apply conventional_types_keep|].
  split; [apply conventional_types_add|].
  destruct (in_dec string_dec "feat"%string T) as [Hfeat|Hfeat].
  - rewrite conventional_types_keep by now left. apply incl_refl.
  - destruct (in_dec string_dec "fix"%string T) as [Hfix|Hfix].
    + rewrite conventional_types_keep by now right. apply incl_refl.
    + rewrite conventional_types_add by assumption.
      intros x Hx. right. now right.
Qed.

(** X2.  The result of [conventional_types] holds both mandatory types
    exactly when the caller's list holds both of them or neither. *)
Theorem mandatory_types_present_iff (T : list string) :
  In "feat"%string (conventional_types T) /\
  In "fix"%string (conventional_types T) <->
  (In "feat"%string T <-> In "fix"%string T).
Proof.
  destruct (in_dec string_dec "feat"%string T) as [Hfeat|Hfeat],
           (in_dec string_dec "fix"%string T) as [Hfix|Hfix].
  - rewrite conventional_types_keep by now left. tauto.
  - rewrite conventional_types_keep by now left. tauto.
  - rewrite conventional_types_keep by now right. tauto.
  - rewrite conventional_types_add by assumption. split; [tauto|]. intros _.
    split; [now left | right; now left].
Qed.

(** X3.  Applying [conventional_types] twice changes nothing: a merged
    list is never merged again, so "feat" and "fix" are not duplicated. *)
Theorem conventional_types_idempotent (T : list string) :
  conventional_types (conventional_types T) = conventional_types T.
Proof.
  destruct (in_dec string_dec "feat"%string T) as [Hfeat|Hfeat].
  - rewrite (conventional_types_keep T) by now left.
    apply conventional_types_keep. now left.
  - destruct (in_dec string_dec "fix"%string T) as [Hfix|Hfix].
    + rewrite (conventional_types_keep T) by now right.
      apply conventional_types_keep. now right.
    + rewrite (conventional_types_add T) by assumption.
      apply conventional_types_keep. left. now left.
Qed.

End EffectiveTypes.

(** ** The classifier *)

Section ClassifierFacts.

Lemma is_special_commit_markers (s : string) :
  is_special_commit s = true <->
  Str.occurs_in "Merged in " s \/ Str.occurs_in "Merge branch " s \/
  Str.occurs_in "This reverts commit " s.
Proof.
  rewrite <- !contains_iff_occurs. unfold is_special_commit. simpl.
  destruct (Str.contains "Merged in " s),
           (Str.contains "Merge branch " s),
           (Str.contains "This reverts commit " s); simpl; intuition.
Qed.

Lemma string_app_assoc (a b c : string) : (a ++ b) ++ c = a ++ b ++ c.
Proof.
  induction a as [|x a IH]; [reflexivity|]. simpl. now rewrite IH.
Qed.

Lemma occurs_in_context (sub s pre post : string) :
  Str.occurs_in sub s -> Str.occurs_in sub (pre ++ s ++ post).
Proof.
  intros (a & b & ->). exists (pre ++ a), (b ++ post).
  now rewrite !string_app_assoc.
Qed.

Lemma is_special_commit_context (s pre post : string) :
  is_special_commit s = true -> is_special_commit (pre ++ s ++ post) = true.
Proof.
  intros H. apply is_special_commit_markers in H.
  apply is_special_commit_markers.
  destruct H as [H|[H|H]]; [left | right; left | right; right];
    now apply occurs_in_context.
Qed.

(** X4.  A merge or revert marker anywhere in the message, also in the
    body below a well-formed header, makes the message not conventional,
    whatever the types and the scope policy. *)
Theorem marker_in_body_not_conventional
  (header body rest : string) (T : list string) (o : bool) :
  is_special_commit body = true ->
  is_conventional (header ++ body ++ rest) T o = ret false.
Proof.
  intros H. unfold is_conventional.
  now rewrite (is_special_commit_context body header rest H).
Qed.

Lemma marker_in_body_not_conventional_witness :
  is_special_commit "This reverts commit abc123." = true /\
  is_conventional
    (("fix: undo the change" ++ nl ++ nl) ++ "This reverts commit abc123."
     ++ nl) DEFAULT_TYPES true = ret false.
Proof.
  split; [reflexivity|].
  apply (marker_in_body_not_conventional ("fix: undo the change" ++ nl ++ nl)
           "This reverts commit abc123." nl DEFAULT_TYPES true).
  reflexivity.
Defined.

Lemma ret_injective {A : Type} (a b : A) : ret a = ret b -> a = b.
Proof. unfold ret. now intros [= ->]. Qed.

Lemma is_scope_optional (o : bool) (scope : string) :
  Spec.is_scope o scope -> Spec.is_scope true scope.
Proof.
  intros [[_ ->]|H]; [left; now split | now right].
Qed.

(** X5.  For types that are ordinary text, a message that is conventional
    when the scope is mandatory is conventional when it is optional. *)
Theorem forced_scope_is_stricter (s : string) (T : list string) :
  forallb Spec.plain T = true ->
  is_conventional s T false = ret true ->
  is_conventional s T true = ret true.
Proof.
  intros HT H.
  destruct (is_conventional_plain s T false HT) as (b & Eb & Hb).
  rewrite Eb in H. apply ret_injective in H. subst b.
  destruct (proj1 Hb eq_refl) as (Hs & t & scope & bang & rest & Ht & Hsc & R).
  destruct (is_conventional_plain s T true HT) as (b' & Eb' & Hb').
  rewrite Eb'. f_equal. apply Hb'. split; [assumption|].
  exists t, scope, bang, rest. split; [assumption|].
  split; [now apply is_scope_optional with false | assumption].
Qed.

Lemma forced_scope_is_stricter_witness :
  forallb Spec.plain DEFAULT_TYPES = true /\
  is_conventional "fix(scope): subject" DEFAULT_TYPES false = ret true /\
  is_conventional "fix(scope): subject" DEFAULT_TYPES true = ret true.
Proof.
  split; [reflexivity|]. split; [reflexivity|].
  apply (forced_scope_is_stricter "fix(scope): subject" DEFAULT_TYPES);
    reflexivity.
Defined.

(** X6.  For types that are ordinary text, a conventional message is not
    empty, begins with one of the effective types, holds a colon followed
    by a space, and holds none of the merge and revert markers. *)
Theorem conventional_message_shape (s : string) (T : list string) (o : bool) :
  forallb Spec.plain T = true ->
  is_conventional s T o = ret true ->
  s <> "" /\
  (exists t, In t (conventional_types T) /\ Str.startswith t s = true) /\
  Str.contains ": " s = true /\
  is_special_commit s = false.
Proof.
  intros HT H.
  destruct (is_conventional_plain s T o HT) as (b & Eb & Hb).
  rewrite Eb in H. apply ret_injective in H. subst b.
  destruct (proj1 Hb eq_refl) as (Hs & t & scope & bang & rest & Ht & _ & _ & _ & E).
  assert (C : Str.contains ": " s = true).
  { apply contains_iff_occurs. exists (t ++ scope ++ bang), rest.
    now rewrite E, !string_app_assoc. }
  split; [intros ->; discriminate|].
  split; [|now split].
  exists t. split; [assumption|]. apply startswith_iff_app.
  now exists (scope ++ bang ++ ": " ++ rest).
Qed.

Lemma conventional_message_shape_witness :
  forallb Spec.plain DEFAULT_TYPES = true /\
  is_conventional "docs: explain the hook" DEFAULT_TYPES true = ret true /\
  "docs: explain the hook" <> "" /\
  (exists t, In t (conventional_types DEFAULT_TYPES) /\
             Str.startswith t "docs: explain the hook" = true) /\
  Str.contains ": " "docs: explain the hook" = true /\
  is_special_commit "docs: explain the hook" = false.
Proof.
  split; [reflexivity|]. split; [reflexivity|].
  apply (conventional_message_shape "docs: explain the hook" DEFAULT_TYPES
           true); reflexivity.
Defined.

End ClassifierFacts.

(** ** The entry point *)

Section EntryPoint.

Local Open Scope list_scope.

Lemma is_conventional_outcomes (s : string) (T : list string) (o : bool) :
  is_conventional s T o = ret true \/ is_conventional s T o = ret false \/
  is_conventional s T o = raise ReError.
Proof.
  unfold is_conventional, re_compile.
  destruct (is_special_commit s); [right; now left|].
  destruct (Re.compile (is_conventional_pattern T o) {| Re.DOTALL := true |})
    as [p|]; [|right; now right].
  cbn [bind ret app]. destruct (Re.match_ p s); [now left | right; now left].
Qed.

Lemma check_message_of_ret (m : string) (T : list string) (o b : bool) :
  is_conventional m T o = ret b ->
  check_message m T o =
  if b then ret RESULT_SUCCESS
  else (Return RESULT_FAIL, [Printed (bad_message_text m T)]).
Proof.
  intros H. unfold check_message. rewrite H. now destruct b.
Qed.

Lemma check_message_outcomes (m : string) (T : list string) (o : bool) :
  check_message m T o = ret RESULT_SUCCESS \/
  check_message m T o = (Return RESULT_FAIL, [Printed (bad_message_text m T)])
  \/ check_message m T o = raise ReError.
Proof.
  destruct (is_conventional_outcomes m T o) as [H|[H|H]].
  - left. now rewrite (check_message_of_ret m T o true H).
  - right. left. now rewrite (check_message_of_ret m T o false H).
  - right. right. unfold check_message. now rewrite H.
Qed.

Lemma main_no_filter (args : Namespace) (m : string) (git : run_result) :
  limit_to args = None \/ limit_to args = Some [] ->
  main (Some args) (ReadOk m) git =
  check_message m (types args) (optional_scope args).
Proof.
  intros H. unfold main, limit_check.
  destruct H as [-> | ->]; cbn [bind ret];
    now destruct (check_message m (types args) (optional_scope args)).
Qed.

Lemma main_with_filter (args : Namespace) (m : string) (git : run_result)
  (first : string) (rest : list string) (touched : list Path.t)
  (log : list event) :
  limit_to args = Some (first :: rest) ->
  get_modified_filepaths git m = (Return touched, log) ->
  main (Some args) (ReadOk m) git =
  match filter (under_limit (Str.split "," first)) touched with
  | [] => (Return RESULT_SUCCESS, log)
  | _ :: _ =>
      let (r, l) := check_message m (types args) (optional_scope args) in
      (r, log ++ l)
  end.
Proof.
  intros Hl Hg. unfold main, limit_check. rewrite Hl, Hg.
  cbn [bind ret limited_paths_of].
  destruct (filter (under_limit (Str.split "," first)) touched).
  - cbn. now rewrite !app_nil_r.
  - cbn [app]. rewrite app_nil_r.
    now destruct (check_message m (types args) (optional_scope args)).
Qed.

(** X7.  Without a path filter a merge or revert commit is rejected:
    [main] returns 1 and prints the explanation, whatever the types and
    the scope policy, and runs nothing. *)
Theorem special_commit_rejected (args : Namespace) (message : string)
  (git : run_result) :
  limit_to args = None \/ limit_to args = Some [] ->
  is_special_commit message = true ->
  main (Some args) (ReadOk message) git =
  (Return RESULT_FAIL, [Printed (bad_message_text message (types args))]).
Proof.
  intros Hl Hs. rewrite main_no_filter by assumption.
  apply (check_message_of_ret message (types args) (optional_scope args) false).
  unfold is_conventional. now rewrite Hs.
Qed.

Lemma special_commit_rejected_witness :
  limit_to {| types := DEFAULT_TYPES; limit_to := None;
              optional_scope := true; input := "commit_msg.txt" |} = None /\
  is_special_commit "Merge branch 'develop'" = true /\
  main (Some {| types := DEFAULT_TYPES; limit_to := None;
                optional_scope := true; input := "commit_msg.txt" |})
       (ReadOk "Merge branch 'develop'") RunFailure =
  (Return RESULT_FAIL,
   [Printed (bad_message_text "Merge branch 'develop'" DEFAULT_TYPES)]).
Proof.
  split; [reflexivity|]. split; [reflexivity|].
  apply (special_commit_rejected
           {| types := DEFAULT_TYPES; limit_to := None;
              optional_scope := true; input := "commit_msg.txt" |}
           "Merge branch 'develop'" RunFailure);
    [now left | reflexivity].
Defined.

(** X8.  Without a path filter and with types that are ordinary text,
    [main] returns 0 and prints nothing exactly for the messages that are
    no special commit and have the conventional form over the effective
    types; for every other message it returns 1 and prints the
    explanation.  It never raises. *)
Theorem main_accepts_iff (args : Namespace) (message : string)
  (git : run_result) :
  limit_to args = None \/ limit_to args = Some [] ->
  forallb Spec.plain (types args) = true ->
  exists b : bool,
    main (Some args) (ReadOk message) git =
    (if b then (Return RESULT_SUCCESS, [])
     else (Return RESULT_FAIL,
           [Printed (bad_message_text message (types args))])) /\
    (b = true <->
     is_special_commit message = false /\
     Spec.conforms (conventional_types (types args)) (optional_scope args)
                   message).
Proof.
  intros Hl HT. rewrite main_no_filter by assumption.
  destruct (is_conventional_plain message (types args) (optional_scope args) HT)
    as (b & Eb & Hb).
  exists b. split; [|assumption].
  rewrite (check_message_of_ret _ _ _ b Eb). now destruct b.
Qed.

Lemma main_accepts_iff_witness :
  limit_to {| types := DEFAULT_TYPES; limit_to := Some [];
              optional_scope := false; input := "commit_msg.txt" |}
    = Some [] /\
  forallb Spec.plain DEFAULT_TYPES = true /\
  exists b : bool,
    main (Some {| types := DEFAULT_TYPES; limit_to := Some [];
                  optional_scope := false; input := "commit_msg.txt" |})
         (ReadOk "feat: no scope") RunFailure =
    (if b then (Return RESULT_SUCCESS, [])
     else (Return RESULT_FAIL,
           [Printed (bad_message_text "feat: no scope" DEFAULT_TYPES)])) /\
    (b = true <->
     is_special_commit "feat: no scope" = false /\
     Spec.conforms (conventional_types DEFAULT_TYPES) false "feat: no scope").
Proof.
  split; [reflexivity|]. split; [reflexivity|].
  apply (main_accepts_iff
           {| types := DEFAULT_TYPES; limit_to := Some [];
              optional_scope := false; input := "commit_msg.txt" |}
           "feat: no scope" RunFailure); [now right | reflexivity].
Defined.

Lemma limit_check_outcomes (git : run_result) (lt : option (list string))
  (m : string) :
  exists r l,
    limit_check git lt m = (r, l) /\
    (l = [] \/ l = [Ran git_diff_argv] \/
     exists e, git = CalledProcessError e /\
               l = [Ran git_diff_argv;
                    Printed ("Failed to get modified files. Error: " ++ e)])
    /\ (lt = None \/ lt = Some [] -> l = []).
Proof.
  unfold limit_check. destruct lt as [[|first rest]|].
  - exists (Return false), []. split; [reflexivity|]. split; [now left|trivial].
  - unfold get_modified_filepaths. rewrite status_matches_spec. cbn [bind ret].
    assert (N : Some (first :: rest) = None \/ Some (first :: rest) = Some [] ->
                False) by (intros [H|H]; discriminate).
    destruct (Spec.touched_by_labels m) as [|p ps].
    + destruct git as [out|e|]; cbn [subprocess_run bind ret print app].
      * eexists _, _. split; [reflexivity|]. split; [right; now left|].
        intros H. now elim N.
      * eexists _, _. split; [reflexivity|]. split; [right; right; now exists e|].
        intros H. now elim N.
      * eexists _, _. split; [reflexivity|]. split; [right; now left|].
        intros H. now elim N.
    + cbn [bind ret app]. eexists _, _. split; [reflexivity|].
      split; [now left|]. intros H. now elim N.
  - exists (Return false), []. split; [reflexivity|]. split; [now left|trivial].
Qed.



Lemma queries_app (a b : list event) :
  queries (a ++ b) = queries a + queries b.
Proof.
  unfold queries. now rewrite filter_app, length_app.
Qed.

(** X10.  [main] runs [git diff] at most once, and not at all when no
    path filter is given. *)
Theorem git_runs_at_most_once (parsed : option Namespace)
  (file : read_result) (git : run_result) :
  queries (snd (main parsed file git)) <= 1 /\
  (forall args, parsed = Some args ->
                limit_to args = None \/ limit_to args = Some [] ->
                queries (snd (main parsed file git)) = 0).
Proof.
  destruct parsed as [args|];
    [|split; [unfold main, queries; cbn; lia | intros ? [=]]].
  destruct file as [message| |];
    [| split; [unfold main, queries; cbn; lia | reflexivity]
     | split; [unfold main, queries; cbn; lia | reflexivity]].
  unfold main.
  destruct (limit_check_outcomes git (limit_to args) message)
    as (r & l & E & Hl & Hnone).
  rewrite E.
  assert (Q : queries l <= 1).
  { destruct Hl as [->|[->|(e & _ & ->)]]; cbn; lia. }
  assert (S : queries
                (snd (bind (r, l)
                        (fun out_of_scope : bool =>
                           if out_of_scope then ret RESULT_SUCCESS
                           else check_message message (types args)
                                              (optional_scope args))))
              = queries l).
  { destruct r as [[|]|x]; cbn [bind snd]; [| |reflexivity].
    - cbn [ret snd]. now rewrite app_nil_r.
    - destruct (check_message_outcomes message (types args)
                                       (optional_scope args))
        as [H|[H|H]]; rewrite H; cbn [ret raise snd];
        rewrite queries_app; cbn; lia. }
  rewrite S. split; [assumption|].
  intros a [= <-] H. now rewrite (Hnone H).
Qed.

Lemma startswith_slash_root (q : string) :
  Str.startswith "/" q = true -> Path.root (Path.parse q) <> "".
Proof.
  unfold Path.parse. destruct q as [|c q]; [discriminate|].
  cbn [Str.startswith]. intros H. apply andb_true_iff in H as [H _].
  apply Ascii.eqb_eq in H. subst c.
  destruct q as [|c q]; [cbn; discriminate|].
  destruct (Ascii.eqb_spec c "/") as [->|Hc].
  - destruct q as [|d q]; [cbn; discriminate|].
    destruct (Ascii.eqb_spec d "/") as [->|Hd]; [cbn; discriminate|].
    assert (E : Path.splitroot (String "/" (String "/" (String d q)))
                = ("//", String d q)).
    { destruct d as [[] [] [] [] [] [] [] []]; try reflexivity. now elim Hd. }
    rewrite E. cbn. discriminate.
  - assert (E : Path.splitroot (String "/" (String c q)) = ("/", String c q)).
    { destruct c as [[] [] [] [] [] [] [] []]; try reflexivity. now elim Hc. }
    rewrite E. cbn. discriminate.
Qed.

(** X11.  With a path filter, a message that names no path after a
    status label, and a query for the staged files that fails or lists
    nothing, [main] returns 0 without classifying the message: every
    message is accepted. *)
Theorem no_touched_paths_accepted (args : Namespace) (message : string)
  (git : run_result) (first : string) (rest : list string) :
  limit_to args = Some (first :: rest) ->
  status_matches message = ret [] ->
  git = Completed "" \/ (exists e, git = CalledProcessError e) ->
  exists log, main (Some args) (ReadOk message) git
              = (Return RESULT_SUCCESS, log).
Proof.
  intros Hl Hs Hg.
  assert (G : exists log, get_modified_filepaths git message = (Return [], log)).
  { unfold get_modified_filepaths. rewrite Hs. cbn [bind ret].
    destruct Hg as [-> | (e & ->)]; cbn; eexists; reflexivity. }
  destruct G as (log & G). exists log.
  now rewrite (main_with_filter args message git first rest [] log Hl G).
Qed.

Lemma no_touched_paths_accepted_witness :
  limit_to (example_args ["src"]) = Some ["src"] /\
  status_matches "bad commit message" = ret [] /\
  exists log,
    main (Some (example_args ["src"])) (ReadOk "bad commit message")
         (CalledProcessError "exit status 128")
    = (Return RESULT_SUCCESS, log).
Proof.
  split; [reflexivity|]. split; [reflexivity|].
  apply (no_touched_paths_accepted (example_args ["src"])
           "bad commit message" (CalledProcessError "exit status 128")
           "src" []); [reflexivity | reflexivity |].
  right. now exists "exit status 128".
Defined.

Lemma under_limit_roots (limited : list string) (p : Path.t) :
  (forall q, In q limited -> Path.root (Path.parse q) <> Path.root p) ->
  under_limit limited p = false.
Proof.
  intros H. destruct (under_limit limited p) eqn:U; [|reflexivity].
  apply under_limit_iff in U as (q & Hq & U).
  apply in_map_iff in Hq as (x & <- & Hx). elim (H x Hx).
  destruct U as [->|[R _]]; [reflexivity | assumption].
Qed.

(** X12.  Filter paths that begin with a slash never cover a touched
    path that does not: when every limited path is absolute and every
    touched path is relative, as the paths [git diff] prints are, [main]
    returns 0 without classifying the message. *)
Theorem absolute_filter_skips_relative_paths (args : Namespace)
  (message : string) (git : run_result) (first : string)
  (rest : list string) (touched : list Path.t) (log : list event) :
  limit_to args = Some (first :: rest) ->
  get_modified_filepaths git message = (Return touched, log) ->
  (forall p, In p touched -> Path.root p = "") ->
  (forall q, In q (Str.split "," first) -> Str.startswith "/" q = true) ->
  main (Some args) (ReadOk message) git = (Return RESULT_SUCCESS, log).
Proof.
  intros Hl Hg Hrel Habs.
  rewrite (main_with_filter args message git first rest touched log Hl Hg).
  replace (filter (under_limit (Str.split "," first)) touched)
    with (@nil Path.t); [reflexivity|].
  symmetry. apply filter_nil_iff. intros p Hp. apply under_limit_roots.
  intros q Hq. rewrite (Hrel p Hp). apply startswith_slash_root.
  now apply Habs.
Qed.

Lemma absolute_filter_skips_relative_paths_witness :
  limit_to (example_args ["/repo/src,/repo/docs"])
    = Some ["/repo/src,/repo/docs"] /\
  get_modified_filepaths (Completed ("src/hook.py" ++ nl)) "bad commit message"
    = (Return [Path.parse "src/hook.py"], [Ran git_diff_argv]) /\
  main (Some (example_args ["/repo/src,/repo/docs"]))
       (ReadOk "bad commit message") (Completed ("src/hook.py" ++ nl))
    = (Return RESULT_SUCCESS, [Ran git_diff_argv]).
Proof.
  split; [reflexivity|]. split; [reflexivity|].
  apply (absolute_filter_skips_relative_paths
           (example_args ["/repo/src,/repo/docs"]) "bad commit message"
           (Completed ("src/hook.py" ++ nl)) "/repo/src,/repo/docs" []
           [Path.parse "src/hook.py"] [Ran git_diff_argv]);
    [reflexivity | reflexivity | |].
  - intros p [<-|[]]. reflexivity.
  - intros q [<-|[<-|[]]]; reflexivity.
Defined.

Lemma split_nonempty (sep : ascii) (s : string) : Str.split sep s <> [].
Proof.
  destruct s as [|c s]; cbn [Str.split]; [discriminate|].
  destruct (Ascii.eqb c sep); [discriminate|].
  destruct (Str.split sep s); discriminate.
Qed.

Lemma split_trailing (sep : ascii) (s : string) :
  Str.split sep (s ++ String sep "") = Str.split sep s ++ [""%string].
Proof.
  induction s as [|c s IH].
  - cbn. now rewrite Ascii.eqb_refl.
  - cbn [append Str.split]. rewrite IH.
    destruct (Ascii.eqb c sep); [reflexivity|].
    pose proof (split_nonempty sep s) as N.
    destruct (Str.split sep s) as [|f fs]; [now elim N | reflexivity].
Qed.

Lemma current_directory_covers (limited : list string) (p : Path.t) :
  In ""%string limited \/ In "."%string limited ->
  Path.root p = "" -> Path.parts p <> [] ->
  under_limit limited p = true.
Proof.
  intros Hin Hroot Hparts. apply under_limit_iff.
  exists {| Path.root := ""; Path.parts := [] |}. split.
  - apply in_map_iff.
    destruct Hin as [H|H]; [exists ""%string | exists "."%string];
      (split; [reflexivity | assumption]).
  - right. split; [now rewrite Hroot|].
    exists (Path.parts p). split; [assumption | reflexivity].
Qed.

(** X13.  A [--limit-to] value that ends in a comma, or holds a single
    dot between commas, covers every relative touched path that has at
    least one component: the empty text and the dot are both read as the
    current directory, an ancestor of every such path. *)
Theorem trailing_comma_covers_all (a : string) (p : Path.t) :
  Path.root p = "" -> Path.parts p <> [] ->
  under_limit (Str.split "," (a ++ ",")) p = true /\
  under_limit (Str.split "," (a ++ ",.")) p = true.
Proof.
  intros Hroot Hparts. split.
  - apply current_directory_covers; [|assumption|assumption].
    left. rewrite split_trailing. apply in_or_app. right. now left.
  - apply current_directory_covers; [|assumption|assumption].
    right.
    assert (E : Str.split "," (a ++ ",.") = Str.split "," a ++ ["."%string]).
    { induction a as [|c a IH]; [reflexivity|].
      cbn [append Str.split]. rewrite IH.
      destruct (Ascii.eqb c ","); [reflexivity|].
      pose proof (split_nonempty "," a) as N.
      destruct (Str.split "," a) as [|f fs]; [now elim N | reflexivity]. }
    rewrite E. apply in_or_app. right. now left.
Qed.

Lemma trailing_comma_covers_all_witness :
  Path.root (Path.parse "docs/readme.md") = "" /\
  Path.parts (Path.parse "docs/readme.md") <> [] /\
  under_limit (Str.split "," ("src" ++ ",")) (Path.parse "docs/readme.md")
    = true /\
  under_limit (Str.split "," ("src" ++ ",.")) (Path.parse "docs/readme.md")
    = true.
Proof.
  split; [reflexivity|]. split; [discriminate|].
  apply (trailing_comma_covers_all "src" (Path.parse "docs/readme.md"));
    [reflexivity | discriminate].
Defined.

Lemma falls_under_trans (p r q : Path.t) :
  Spec.falls_under p r -> Spec.falls_under r q -> Spec.falls_under p q.
Proof.
  intros [->|[R1 (x & Hx & E1)]]; [trivial|].
  intros [<-|[R2 (y & Hy & E2)]].
  - right. split; [assumption|]. now exists x.
  - right. split; [congruence|]. exists (y ++ x). split.
    + destruct y; [now elim Hy | discriminate].
    + now rewrite E1, E2, app_assoc.
Qed.

(** X14.  Covering is transitive: when the limited path [q] covers the
    directory [r], it covers every touched path that [r] covers. *)
Theorem filter_covers_subdirectories (q r : string) (p : Path.t) :
  under_limit [q] (Path.parse r) = true ->
  under_limit [r] p = true ->
  under_limit [q] p = true.
Proof.
  intros H1 H2.
  apply under_limit_iff in H1 as (q' & [<-|[]] & H1).
  apply under_limit_iff in H2 as (r' & [<-|[]] & H2).
  apply under_limit_iff. exists (Path.parse q). split; [now left|].
  now apply falls_under_trans with (Path.parse r).
Qed.

Lemma filter_covers_subdirectories_witness :
  under_limit ["src"] (Path.parse "src/hooks/") = true /\
  under_limit ["src/hooks/"] (Path.parse "src/hooks/commit.py") = true /\
  under_limit ["src"] (Path.parse "src/hooks/commit.py") = true.
Proof.
  split; [reflexivity|]. split; [reflexivity|].
  apply (filter_covers_subdirectories "src" "src/hooks/"
           (Path.parse "src/hooks/commit.py")); reflexivity.
Defined.

End EntryPoint.

(** ** The status labels *)

Section StatusLabels.

Local Open Scope list_scope.

Lemma token_no_space (l : list ascii) :
  forallb (fun c => negb (Re.is_space c)) (Spec.token l) = true.
Proof.
  induction l as [|c l IH]; [reflexivity|]. cbn [Spec.token].
  destruct (Re.is_space c) eqn:Hc; [reflexivity|].
  cbn [forallb]. now rewrite Hc, IH.
Qed.

Lemma labelled_shape (label text t : string) :
  In t (Spec.labelled label text) ->
  t <> ""%string /\
  forallb (fun c => negb (Re.is_space c)) (list_ascii_of_string t) = true /\
  Str.occurs_in (label ++ t)%string text.
Proof.
  unfold Spec.labelled. cbv zeta. rewrite in_flat_map.
  intros (i & _ & Ht). unfold Spec.token_after in Ht.
  remember (list_ascii_of_string text) as s eqn:Es.
  remember (list_ascii_of_string label) as l eqn:El.
  destruct (Spec.label_before l s i) eqn:Hb; [|destruct Ht].
  pose proof (token_no_space (skipn i s)) as Hns.
  pose proof (token_firstn (skipn i s)) as Hfirst.
  destruct (Spec.token (skipn i s)) as [|c tk] eqn:Etk; [destruct Ht|].
  destruct Ht as [<-|[]].
  split; [discriminate|]. split.
  { now rewrite list_ascii_of_string_of_list_ascii. }
  unfold Spec.label_before in Hb. apply andb_true_iff in Hb as [Hlen Hb].
  apply Nat.leb_le in Hlen.
  destruct (list_eq_dec ascii_dec _ l) as [E|]; [|discriminate].
  apply firstn_is_prefix in E. rewrite skipn_skipn in E.
  replace (List.length l + (i - List.length l)) with i in E by lia.
  exists (string_of_list_ascii (firstn (i - List.length l) s)),
    (string_of_list_ascii (skipn (List.length (c :: tk)) (skipn i s))).
  rewrite <- (string_of_list_ascii_of_string text), <- Es.
  rewrite <- (firstn_skipn (i - List.length l) s) at 1.
  rewrite E. rewrite <- (firstn_skipn (List.length (c :: tk)) (skipn i s)) at 1.
  rewrite Hfirst, !string_of_list_app, El, string_of_list_ascii_of_string.
  now rewrite string_app_assoc.
Qed.

(** X15.  A token that one of the four status patterns finds in a message
    is not empty, holds no whitespace, and stands in the message right
    after its label: a path with a space in it is cut at the space. *)
Theorem status_tokens_shape (label : string) (regex : Re.pattern)
  (input t : string) :
  In label ["modified:   "; "new file:   "; "deleted:    "; "renamed:    "]%string ->
  re_compile ("(?<=" ++ label ++ ")\S+")%string no_flags = ret regex ->
  In t (Re.findall regex input) ->
  t <> ""%string /\
  forallb (fun c => negb (Re.is_space c)) (list_ascii_of_string t) = true /\
  Str.occurs_in (label ++ t)%string input.
Proof.
  intros Hl Hc Ht. apply labelled_shape.
  assert (P : exists pre sp,
             list_ascii_of_string label = pre ++ [sp] /\
             Re.is_space sp = true /\ regex = label_pattern label).
  { destruct Hl as [<-|[<-|[<-|[<-|[]]]]];
      match type of Hc with
      | re_compile ("(?<=" ++ ?L ++ _)%string _ = _ =>
          assert (E : re_compile ("(?<=" ++ L ++ ")\S+")%string no_flags
                      = ret (label_pattern L))
            by (vm_compute; reflexivity);
          rewrite E in Hc; apply ret_injective in Hc; subst regex;
          exists (removelast (list_ascii_of_string L)), " "%char;
          repeat split; reflexivity
      end. }
  destruct P as (pre & sp & Epre & Hsp & ->).
  now rewrite <- (findall_label label pre sp Epre Hsp input).
Qed.

Lemma status_tokens_shape_witness :
  In "renamed:    "%string
     ["modified:   "; "new file:   "; "deleted:    "; "renamed:    "]%string /\
  re_compile "(?<=renamed:    )\S+" no_flags = ret (label_pattern "renamed:    ")
  /\
  In "old.py"%string
     (Re.findall (label_pattern "renamed:    ")
                 "  renamed:    old.py -> new name.py") /\
  "old.py"%string <> ""%string /\
  forallb (fun c => negb (Re.is_space c)) (list_ascii_of_string "old.py")
    = true /\
  Str.occurs_in ("renamed:    " ++ "old.py")%string
                "  renamed:    old.py -> new name.py".
Proof.
  split; [right; right; right; now left|]. split; [reflexivity|].
  split; [now left|].
  apply (status_tokens_shape "renamed:    " (label_pattern "renamed:    ")
           "  renamed:    old.py -> new name.py" "old.py");
    [right; right; right; now left | reflexivity | now left].
Defined.

End StatusLabels.
